(** * onepassword/crypto: the OPVault key hierarchy, read path

    A shallow embedding of [crypto/crypto.go]: key derivation
    ([ComputeDerivedKeys]), the MAC check ([authenticate]), AES-CBC
    decryption ([decrypt]), the OPData01 container ([DecryptOPData01]) and the
    two key unwrappers ([DecryptMasterKeys], [DecryptItemKey]).

    The Go functions return [(value, error)] and may panic at run time (a
    slice expression out of range, a block mode given a partial block); the
    three outcomes are kept apart in [result].  The hash functions and the AES
    block function come from Go's libraries: they are the fields of the
    classes [HMAC_SHA256], [HMAC_SHA512], [SHA512] and [AES], of which only
    the output sizes are known here.  What those libraries build on top of
    them and this package calls (PBKDF2, CBC chaining, the readers of
    [bytes], [io] and [encoding/binary]) is written out. *)

From Stdlib Require Import String List ZArith Lia Bool Arith.
From Stdlib Require Import Strings.Byte.
Import ListNotations.

(** ** Byte sequences *)

Definition bytes := list byte.

(** [make([]byte, n)]: [n] zero bytes. *)
Definition make (n : nat) : bytes := repeat x00 n.

(** The built-in [copy(dst, src)]: the first [min (len dst) (len src)] bytes
    of [dst] are overwritten; the number of bytes copied is returned too. *)
Definition copy (dst src : bytes) : bytes * nat :=
  (firstn (length dst) src ++ skipn (length src) dst,
   Nat.min (length dst) (length src)).

Definition byte_eqb : byte -> byte -> bool := Byte.eqb.

(** [bytes.Equal], and [hmac.Equal] (which differs by running in constant
    time): same length and same contents. *)
Fixpoint bytes_Equal (a b : bytes) : bool :=
  match a, b with
  | [], [] => true
  | x :: a', y :: b' => byte_eqb x y && bytes_Equal a' b'
  | _, _ => false
  end.

Definition xor_byte (a b : byte) : byte :=
  let '(a0, (a1, (a2, (a3, (a4, (a5, (a6, a7))))))) := Byte.to_bits a in
  let '(b0, (b1, (b2, (b3, (b4, (b5, (b6, b7))))))) := Byte.to_bits b in
  Byte.of_bits
    (xorb a0 b0, (xorb a1 b1, (xorb a2 b2, (xorb a3 b3,
    (xorb a4 b4, (xorb a5 b5, (xorb a6 b6, xorb a7 b7))))))).

(** [subtle.XORBytes]: xor over the common length. *)
Fixpoint xor_bytes (a b : bytes) : bytes :=
  match a, b with
  | x :: a', y :: b' => xor_byte x y :: xor_bytes a' b'
  | _, _ => []
  end.

Definition byte_Z (b : byte) : Z := Z.of_N (Byte.to_N b).

(** ** Outcomes *)

(** The package's sentinel errors, and the errors of [io] and [crypto/aes]
    that its functions pass on unchanged. *)
Inductive error : Type :=
| ErrIncompleteHeader
| ErrIncompleteCiphertext
| ErrIncompleteIV
| ErrIncompleteMagic
| ErrIncompleteMAC
| ErrIncorrectMAC
| ErrInvalidMagic
| io_EOF
| io_ErrUnexpectedEOF
| aes_KeySizeError (k : nat).

Inductive panic : Type :=
| slice_bounds_out_of_range
| input_not_full_blocks
| output_smaller_than_input
| incorrect_IV_length.

Inductive result (A : Type) : Type :=
| Ok (a : A)
| Err (e : error)
| Panic (p : panic).

Arguments Ok {A} a.
Arguments Err {A} e.
Arguments Panic {A} p.

Definition bind {A B : Type} (x : result A) (f : A -> result B) : result B :=
  match x with
  | Ok a => f a
  | Err e => Err e
  | Panic p => Panic p
  end.

Notation "x <- e ;; k" := (bind e (fun x => k))
  (at level 61, e at next level, right associativity).

(** A slice expression [s[lo:hi]] of a slice whose capacity is its length. *)
Definition slice (s : bytes) (lo hi : Z) : result bytes :=
  if ((0 <=? lo) && (lo <=? hi) && (hi <=? Z.of_nat (length s)))%Z
  then Ok (firstn (Z.to_nat (hi - lo)) (skipn (Z.to_nat lo) s))
  else Panic slice_bounds_out_of_range.

(** ** Library primitives *)

(** [hmac.New(sha256.New, key)], [Write(msg)], [Sum(nil)]. *)
Class HMAC_SHA256 : Type := {
  hmac_sha256 : bytes -> bytes -> bytes;
  hmac_sha256_Size : forall key msg, length (hmac_sha256 key msg) = 32
}.

(** [hmac.New(sha512.New, key)], the pseudorandom function of PBKDF2. *)
Class HMAC_SHA512 : Type := {
  hmac_sha512 : bytes -> bytes -> bytes;
  hmac_sha512_Size : forall key msg, length (hmac_sha512 key msg) = 64
}.

(** [sha512.Sum512], which returns a [[64]byte]. *)
Class SHA512 : Type := {
  Sum512 : bytes -> bytes;
  Sum512_Size : forall msg, length (Sum512 msg) = 64
}.

(** The AES block function [Block.Decrypt] under an expanded key: one
    16-byte block out. *)
Class AES : Type := {
  aes_Decrypt : bytes -> bytes -> bytes;
  aes_Decrypt_Size : forall key blk, length (aes_Decrypt key blk) = 16
}.

(** ** Constants and the key pair *)

Definition EncKeySize : Z := 32.
Definition MACKeySize : Z := 32.
Definition sha256_Size : nat := 32.
Definition aes_BlockSize : nat := 16.

Definition OPData01Magic : bytes := list_byte_of_string "opdata01".

Record KeyPair : Type := mkKeyPair {
  EncKey : bytes;
  MACKey : bytes
}.

(** ** authenticate *)

Definition authenticate `{HMAC_SHA256} (blob : bytes) (kp : KeyPair)
  : result bytes :=
  if length blob <? sha256_Size then Err ErrIncompleteMAC else
  let macOff := Z.of_nat (length blob - sha256_Size) in
  data <- slice blob 0 macOff ;;
  dataMAC <- slice blob macOff (Z.of_nat (length blob)) ;;
  let expectedMAC := hmac_sha256 (MACKey kp) data in
  if negb (bytes_Equal dataMAC expectedMAC) then Err ErrIncorrectMAC else
  Ok data.

(** ** Readers

    A [bytes.Reader] or a [bytes.Buffer] over a byte slice is represented by
    its unread tail; each read returns the reader it leaves behind. *)

Definition reader := bytes.

Definition NewReader (b : bytes) : reader := b.
Definition NewBuffer (b : bytes) : reader := b.

(** [Read(p)] of a [bytes.Reader]: [io.EOF] once nothing is left, otherwise as
    much as fits in [p]. *)
Definition Reader_Read (r : reader) (p : bytes)
  : reader * bytes * nat * option error :=
  if length r =? 0 then (r, p, 0, Some io_EOF)
  else let '(p', n) := copy p r in (skipn n r, p', n, None).

(** [Read(p)] of a [bytes.Buffer]: the same, except that reading into an empty
    [p] from an empty buffer is no error. *)
Definition Buffer_Read (b : reader) (p : bytes)
  : reader * bytes * nat * option error :=
  if length b =? 0 then
    if length p =? 0 then (b, p, 0, None) else (b, p, 0, Some io_EOF)
  else let '(p', n) := copy p b in (skipn n b, p', n, None).

(** [ioutil.ReadAll]: everything up to the end, which is not an error. *)
Definition ReadAll (r : reader) : reader * bytes * option error :=
  ([], r, None).

(** [io.ReadFull(r, buf)]: [io.EOF] when nothing could be read,
    [io.ErrUnexpectedEOF] when the input ends inside [buf]. *)
Definition ReadFull (r : reader) (buf : bytes)
  : reader * bytes * nat * option error :=
  let '(buf', n) := copy buf r in
  if n <? length buf
  then (skipn n r, buf', n,
        Some (if n =? 0 then io_EOF else io_ErrUnexpectedEOF))
  else (skipn n r, buf', n, None).

(** [binary.LittleEndian.Uint64]. *)
Definition LittleEndian_Uint64 (b : bytes) : Z :=
  let at_ i := byte_Z (nth i b x00) in
  Z.lor (at_ 0%nat)
  (Z.lor (Z.shiftl (at_ 1%nat) 8)
  (Z.lor (Z.shiftl (at_ 2%nat) 16)
  (Z.lor (Z.shiftl (at_ 3%nat) 24)
  (Z.lor (Z.shiftl (at_ 4%nat) 32)
  (Z.lor (Z.shiftl (at_ 5%nat) 40)
  (Z.lor (Z.shiftl (at_ 6%nat) 48)
         (Z.shiftl (at_ 7%nat) 56))))))).

(** [binary.Read(r, binary.LittleEndian, &ptLen)] for a [*uint64]. *)
Definition binary_Read_uint64 (r : reader) : reader * result Z :=
  let bs := make 8 in
  let '(r', bs', _, err) := ReadFull r bs in
  match err with
  | Some e => (r', Err e)
  | None => (r', Ok (LittleEndian_Uint64 bs'))
  end.

(** Arithmetic on [uint64]. *)
Definition wrap64 (z : Z) : Z := (z mod 2 ^ 64)%Z.

(** ** AES in CBC mode *)

(** A [cipher.Block]: the block decryption function of an expanded key. *)
Definition Block := bytes -> bytes.

(** [aes.NewCipher]: 16-, 24- and 32-byte keys only. *)
Definition aes_NewCipher `{AES} (key : bytes) : result Block :=
  let k := length key in
  if (k =? 16) || (k =? 24) || (k =? 32)
  then Ok (aes_Decrypt key)
  else Err (aes_KeySizeError k).

Record BlockMode : Type := mkBlockMode {
  bm_b : Block;
  bm_iv : bytes
}.

(** [cipher.NewCBCDecrypter]. *)
Definition NewCBCDecrypter (b : Block) (iv : bytes) : result BlockMode :=
  if negb (length iv =? aes_BlockSize) then Panic incorrect_IV_length
  else Ok (mkBlockMode b iv).

(** CBC decryption of [n] blocks of [src]: each block is decrypted and
    xored with the ciphertext block before it, the IV for the first. *)
Fixpoint cbc_chain (b : Block) (prev src : bytes) (n : nat) : bytes :=
  match n with
  | 0 => []
  | S n' =>
      let c := firstn aes_BlockSize src in
      xor_bytes (b c) prev ++ cbc_chain b c (skipn aes_BlockSize src) n'
  end.

(** [CryptBlocks(dst, src)] of the CBC decrypter; the new contents of [dst]. *)
Definition CryptBlocks (x : BlockMode) (dst src : bytes) : result bytes :=
  if negb (length src mod aes_BlockSize =? 0)
  then Panic input_not_full_blocks
  else if length dst <? length src
  then Panic output_smaller_than_input
  else Ok (cbc_chain (bm_b x) (bm_iv x) src (length src / aes_BlockSize)
           ++ skipn (length src) dst).

(** The plaintext that CBC decryption under [key] and [iv] gives for the
    whole blocks of [ct]. *)
Definition cbc_plaintext `{AES} (key iv ct : bytes) : bytes :=
  cbc_chain (aes_Decrypt key) iv ct (length ct / aes_BlockSize).

(** ** decrypt *)

Definition decrypt `{AES} (blob : bytes) (kp : KeyPair) : result bytes :=
  let r := NewReader blob in
  (* Read IV *)
  let iv := make aes_BlockSize in
  let '(r, iv, n, err) := Reader_Read r iv in
  match err with
  | Some e => Err e
  | None =>
  if negb (n =? aes_BlockSize) then Err ErrIncompleteIV else
  (* Read ciphertext *)
  let '(r, ciphertext, err) := ReadAll r in
  match err with
  | Some e => Err e
  | None =>
  if length ciphertext <? aes_BlockSize then Err ErrIncompleteCiphertext else
  (* Decrypt *)
  b <- aes_NewCipher (EncKey kp) ;;
  let plaintext := make (length ciphertext) in
  bm <- NewCBCDecrypter b iv ;;
  CryptBlocks bm plaintext ciphertext
  end
  end.

(** ** DecryptOPData01 *)

Definition DecryptOPData01 `{HMAC_SHA256} `{AES} (opdata : bytes) (kp : KeyPair)
  : result bytes :=
  opdata <- authenticate opdata kp ;;
  let r := NewBuffer opdata in
  (* Read magic *)
  let magic := make (length OPData01Magic) in
  let '(r, magic, n, err) := Buffer_Read r magic in
  match err with
  | Some e => Err e
  | None =>
  if negb (n =? length magic) then Err ErrIncompleteMagic
  else if negb (bytes_Equal magic OPData01Magic) then Err ErrInvalidMagic else
  (* Read plaintext length *)
  let '(r, rd) := binary_Read_uint64 r in
  ptLen <- rd ;;
  let padLen := wrap64 (Z.of_nat aes_BlockSize
                        - ptLen mod Z.of_nat aes_BlockSize) in
  (* Decrypt data *)
  let '(r, ct, _) := ReadAll r in
  plaintext <- decrypt ct kp ;;
  slice plaintext padLen (Z.of_nat (length plaintext))
  end.

(** ** DecryptItemKey *)

Definition DecryptItemKey `{HMAC_SHA256} `{AES} (itemKey : bytes) (kp : KeyPair)
  : result KeyPair :=
  itemKey <- authenticate itemKey kp ;;
  plaintext <- decrypt itemKey kp ;;
  ek <- slice plaintext 0 EncKeySize ;;
  mk <- slice plaintext EncKeySize (EncKeySize + MACKeySize) ;;
  Ok (mkKeyPair ek mk).

(** ** ComputeDerivedKeys *)

(** The inner loop of [pbkdf2.Key], [for n := 2; n <= iter; n++]: [count]
    further applications of the pseudorandom function, each xored into [T]. *)
Fixpoint pbkdf2_loop `{HMAC_SHA512} (password : bytes) (count : nat)
  (U T : bytes) : bytes :=
  match count with
  | 0 => T
  | S count' =>
      let U' := hmac_sha512 password U in
      pbkdf2_loop password count' U' (xor_bytes T U')
  end.

(** [math.MaxInt], and the wrap-around of an [int], for an [int] of
    [intSize] bits: 32 or 64, by platform. *)
Definition MaxInt (intSize : Z) : Z := (2 ^ (intSize - 1) - 1)%Z.

Definition wrap_int (intSize z : Z) : Z :=
  ((z + 2 ^ (intSize - 1)) mod 2 ^ intSize - 2 ^ (intSize - 1))%Z.

(** The same loop with its counter, [for n := 2; n <= iter; n++], where
    [n++] wraps around: [None] when [fuel] rounds do not reach the end of the
    loop.  Below [math.MaxInt] the loop ends and gives what [pbkdf2_loop]
    gives; at [iter = math.MaxInt] the test [n <= iter] never fails. *)
Fixpoint pbkdf2_counted `{HMAC_SHA512} (intSize : Z) (password : bytes)
  (fuel : nat) (n iter : Z) (U T : bytes) : option bytes :=
  match fuel with
  | 0 => None
  | S fuel' =>
      if (n <=? iter)%Z then
        let U' := hmac_sha512 password U in
        pbkdf2_counted intSize password fuel' (wrap_int intSize (n + 1)) iter
                       U' (xor_bytes T U')
      else Some T
  end.

(** [pbkdf2.Key(password, salt, iter, 64, sha512.New)]: the key length is
    the hash length, so there is one block, of index 1.  The loop is
    [pbkdf2_loop], which is the library's loop for [iter] below
    [math.MaxInt]. *)
Definition pbkdf2_Key `{HMAC_SHA512} (password salt : bytes) (iter : Z)
  : bytes :=
  let T := hmac_sha512 password (salt ++ [x00; x00; x00; x01]) in
  let dk := pbkdf2_loop password (Z.to_nat (iter - 1)) T T in
  firstn 64 dk.

Definition ComputeDerivedKeys `{HMAC_SHA512} (pass : string) (salt : bytes)
  (nIters : Z) : result KeyPair :=
  let data := pbkdf2_Key (list_byte_of_string pass) salt nIters in
  ek <- slice data 0 32 ;;
  mk <- slice data 32 64 ;;
  Ok (mkKeyPair ek mk).

(** ** DecryptMasterKeys *)

Definition DecryptMasterKeys `{HMAC_SHA256} `{AES} `{SHA512} (opdata : bytes)
  (derivedKeys : KeyPair) : result KeyPair :=
  mkData <- DecryptOPData01 opdata derivedKeys ;;
  let data := Sum512 mkData in
  ek <- slice data 0 32 ;;
  mk <- slice data 32 64 ;;
  Ok (mkKeyPair ek mk).

(** ** Stand-ins for the library primitives

    Simple functions of the right sizes, in place of the hash functions and
    of AES, on which the package's functions can be run. *)

Module Standin.

Definition pad_to (n : nat) (b : bytes) : bytes := firstn n (b ++ make n).

Lemma pad_to_length (n : nat) (b : bytes) : length (pad_to n b) = n.
Proof.
  unfold pad_to, make.
  rewrite length_firstn, length_app, repeat_length. lia.
Qed.

#[export] Instance mac256 : HMAC_SHA256 := {|
  hmac_sha256 := fun key msg => pad_to 32 (xor_bytes (pad_to 32 (rev msg)) (pad_to 32 key));
  hmac_sha256_Size := fun key msg => pad_to_length 32 _
|}.

#[export] Instance mac512 : HMAC_SHA512 := {|
  hmac_sha512 := fun key msg => pad_to 64 (xor_bytes (pad_to 64 (rev msg)) (pad_to 64 key));
  hmac_sha512_Size := fun key msg => pad_to_length 64 _
|}.

#[export] Instance hash512 : SHA512 := {|
  Sum512 := fun msg => pad_to 64 (rev msg);
  Sum512_Size := fun msg => pad_to_length 64 _
|}.

#[export] Instance blockfn : AES := {|
  aes_Decrypt := fun key blk => pad_to 16 (xor_bytes (rev blk) key);
  aes_Decrypt_Size := fun key blk => pad_to_length 16 _
|}.

(** Sample inputs: a key pair with 32-byte keys, a length field that
    declares 5 bytes, an IV and one block of ciphertext. *)
Definition kp0 : KeyPair :=
  mkKeyPair (list_byte_of_string "0123456789abcdef0123456789abcdef")
            (list_byte_of_string "fedcba9876543210fedcba9876543210").
Definition len5 : bytes := [x05; x00; x00; x00; x00; x00; x00; x00].
Definition iv0 : bytes := make 16.
Definition ct1 : bytes := list_byte_of_string "sixteen byte blk".

End Standin.

(** * Properties *)

Lemma Ok_inj (A : Type) (a b : A) : Ok a = Ok b -> a = b.
Proof. congruence. Qed.

(** ** Byte sequences and slices *)

Lemma bytes_Equal_true_iff (a b : bytes) : bytes_Equal a b = true <-> a = b.
Proof.
  revert b. induction a as [|x a IH]; intros [|y b]; simpl; split;
    try congruence; try reflexivity.
  - intros E. apply andb_true_iff in E. destruct E as [E1 E2].
    apply Byte.byte_dec_bl in E1. apply IH in E2. congruence.
  - intros E. injection E as -> ->. apply andb_true_iff. split.
    + now apply Byte.byte_dec_lb.
    + now apply IH.
Qed.

Lemma bytes_Equal_refl (a : bytes) : bytes_Equal a a = true.
Proof. now apply bytes_Equal_true_iff. Qed.

Lemma bytes_Equal_false_iff (a b : bytes) : bytes_Equal a b = false <-> a <> b.
Proof.
  destruct (bytes_Equal a b) eqn:E.
  - apply bytes_Equal_true_iff in E. split; congruence.
  - split; [intros _ Eab | reflexivity].
    apply bytes_Equal_true_iff in Eab. congruence.
Qed.

Lemma make_length (n : nat) : length (make n) = n.
Proof. apply repeat_length. Qed.

Lemma xor_bytes_length (a b : bytes) :
  length (xor_bytes a b) = Nat.min (length a) (length b).
Proof.
  revert b. induction a as [|x a IH]; intros [|y b]; simpl; auto.
Qed.

Lemma slice_Ok (s : bytes) (lo hi : Z) :
  (0 <= lo <= hi)%Z -> (hi <= Z.of_nat (length s))%Z ->
  slice s lo hi = Ok (firstn (Z.to_nat (hi - lo)) (skipn (Z.to_nat lo) s)).
Proof.
  intros [H0 H1] H2. unfold slice.
  apply Z.leb_le in H0, H1, H2. now rewrite H0, H1, H2.
Qed.

Lemma slice_Panic (s : bytes) (lo hi : Z) :
  (Z.of_nat (length s) < hi)%Z ->
  slice s lo hi = Panic slice_bounds_out_of_range.
Proof.
  intros H. unfold slice. apply Z.leb_gt in H. rewrite H.
  now rewrite andb_false_r.
Qed.

Lemma slice_not_Err (s : bytes) (lo hi : Z) (e : error) : slice s lo hi <> Err e.
Proof. unfold slice. now destruct (_ && _). Qed.

Lemma slice_length (s : bytes) (lo hi : Z) (out : bytes) :
  slice s lo hi = Ok out -> Z.of_nat (length out) = (hi - lo)%Z.
Proof.
  unfold slice. destruct (_ && _) eqn:E; [|discriminate].
  apply andb_true_iff in E. destruct E as [E E2].
  apply andb_true_iff in E. destruct E as [E0 E1].
  apply Z.leb_le in E0, E1, E2.
  intros [= <-]. rewrite length_firstn, length_skipn. lia.
Qed.

(** A slice that goes up to the end is the tail. *)
Lemma slice_to_end (s : bytes) (lo : Z) :
  (0 <= lo <= Z.of_nat (length s))%Z ->
  slice s lo (Z.of_nat (length s)) = Ok (skipn (Z.to_nat lo) s).
Proof.
  intros H. rewrite slice_Ok by lia. f_equal.
  apply firstn_all2. rewrite length_skipn. lia.
Qed.

(** A slice that starts at 0 is a prefix. *)
Lemma slice_from_0 (s : bytes) (hi : Z) :
  (0 <= hi <= Z.of_nat (length s))%Z ->
  slice s 0 hi = Ok (firstn (Z.to_nat hi) s).
Proof.
  intros H. rewrite slice_Ok by lia. now rewrite Z.sub_0_r.
Qed.

(** ** authenticate *)

Section Authenticate.
Context `{HMAC_SHA256}.

Lemma authenticate_short (blob : bytes) (kp : KeyPair) :
  length blob < 32 -> authenticate blob kp = Err ErrIncompleteMAC.
Proof.
  intros Hlen. unfold authenticate, sha256_Size.
  apply Nat.ltb_lt in Hlen. now rewrite Hlen.
Qed.

Lemma authenticate_long (blob : bytes) (kp : KeyPair) :
  32 <= length blob ->
  authenticate blob kp =
    let data := firstn (length blob - 32) blob in
    if bytes_Equal (skipn (length blob - 32) blob)
                   (hmac_sha256 (MACKey kp) data)
    then Ok data else Err ErrIncorrectMAC.
Proof.
  intros Hlen. unfold authenticate, sha256_Size.
  apply Nat.ltb_ge in Hlen. rewrite Hlen. apply Nat.ltb_ge in Hlen.
  rewrite slice_from_0 by lia. cbn [bind].
  rewrite slice_to_end by lia. cbn [bind].
  rewrite Nat2Z.id. cbv zeta.
  now destruct (bytes_Equal _ _).
Qed.

Lemma authenticate_app (data tag : bytes) (kp : KeyPair) :
  length tag = 32 ->
  authenticate (data ++ tag) kp =
    if bytes_Equal tag (hmac_sha256 (MACKey kp) data)
    then Ok data else Err ErrIncorrectMAC.
Proof.
  intros Htag. rewrite authenticate_long by (rewrite length_app; lia).
  cbv zeta. rewrite length_app, Htag.
  replace (length data + 32 - 32) with (length data + 0) by lia.
  rewrite firstn_app_2, skipn_app. cbn [firstn].
  rewrite app_nil_r, skipn_all2 by lia.
  replace (length data + 0 - length data) with 0 by lia.
  reflexivity.
Qed.

(** A payload followed by its own tag is accepted. *)
Lemma authenticate_sealed (data : bytes) (kp : KeyPair) :
  authenticate (data ++ hmac_sha256 (MACKey kp) data) kp = Ok data.
Proof.
  rewrite authenticate_app by apply hmac_sha256_Size.
  now rewrite bytes_Equal_refl.
Qed.

Lemma authenticate_Ok_inv (blob data : bytes) (kp : KeyPair) :
  authenticate blob kp = Ok data ->
  blob = data ++ hmac_sha256 (MACKey kp) data.
Proof.
  intros E. destruct (Nat.lt_ge_cases (length blob) 32) as [Hs|Hl].
  - rewrite authenticate_short in E by assumption. discriminate.
  - rewrite authenticate_long in E by assumption. cbv zeta in E.
    destruct (bytes_Equal _ _) eqn:Eq; [|discriminate].
    apply bytes_Equal_true_iff in Eq. injection E as <-.
    rewrite <- Eq. symmetry. apply firstn_skipn.
Qed.

Lemma authenticate_errors (blob : bytes) (kp : KeyPair) (e : error) :
  authenticate blob kp = Err e -> e = ErrIncompleteMAC \/ e = ErrIncorrectMAC.
Proof.
  intros E. destruct (Nat.lt_ge_cases (length blob) 32) as [Hs|Hl].
  - rewrite authenticate_short in E by assumption. left. congruence.
  - rewrite authenticate_long in E by assumption. cbv zeta in E.
    destruct (bytes_Equal _ _); [discriminate|]. right. congruence.
Qed.

Lemma authenticate_no_panic (blob : bytes) (kp : KeyPair) (p : panic) :
  authenticate blob kp <> Panic p.
Proof.
  destruct (Nat.lt_ge_cases (length blob) 32) as [Hs|Hl].
  - now rewrite authenticate_short by assumption.
  - rewrite authenticate_long by assumption. cbv zeta.
    now destruct (bytes_Equal _ _).
Qed.

End Authenticate.

(** ** decrypt *)

Lemma cbc_chain_length (b : Block) (n : nat) :
  (forall c, length (b c) = 16) ->
  forall prev src,
    length prev = 16 -> 16 * n <= length src ->
    length (cbc_chain b prev src n) = 16 * n.
Proof.
  intros Hb. induction n as [|n IH]; intros prev src Hprev Hsrc.
  - reflexivity.
  - cbn [cbc_chain]. unfold aes_BlockSize.
    rewrite length_app, xor_bytes_length, Hb, Hprev.
    rewrite IH.
    + lia.
    + rewrite length_firstn. lia.
    + rewrite length_skipn. lia.
Qed.

Section Decrypt.
Context `{AES}.

Lemma cbc_plaintext_length (key iv ct : bytes) :
  length iv = 16 -> length ct mod 16 = 0 ->
  length (cbc_plaintext key iv ct) = length ct.
Proof.
  intros Hiv Hct. unfold cbc_plaintext, aes_BlockSize.
  rewrite cbc_chain_length; auto using aes_Decrypt_Size.
  - pose proof (Nat.div_mod_eq (length ct) 16). lia.
  - pose proof (Nat.div_mod_eq (length ct) 16). lia.
Qed.

(** The checks of [decrypt] in the order it makes them, on the length of
    the blob. *)
Lemma decrypt_eq (blob : bytes) (kp : KeyPair) :
  decrypt blob kp =
    if length blob =? 0 then Err io_EOF
    else if length blob <? 16 then Err ErrIncompleteIV
    else if length blob - 16 <? 16 then Err ErrIncompleteCiphertext
    else b <- aes_NewCipher (EncKey kp) ;;
         bm <- NewCBCDecrypter b (firstn 16 blob) ;;
         CryptBlocks bm (make (length blob - 16)) (skipn 16 blob).
Proof.
  unfold decrypt, NewReader, Reader_Read, ReadAll, copy, aes_BlockSize.
  rewrite make_length.
  destruct (length blob =? 0) eqn:E0; [reflexivity|].
  apply Nat.eqb_neq in E0.
  destruct (length blob <? 16) eqn:E1.
  - apply Nat.ltb_lt in E1.
    replace (Nat.min 16 (length blob) =? 16) with false; [reflexivity|].
    symmetry. apply Nat.eqb_neq. lia.
  - apply Nat.ltb_ge in E1.
    replace (Nat.min 16 (length blob)) with 16 by lia.
    cbn [Nat.eqb negb]. rewrite length_skipn.
    destruct (length blob - 16 <? 16); [reflexivity|].
    rewrite (skipn_all2 (make 16)) by (rewrite make_length; lia).
    now rewrite app_nil_r.
Qed.

Lemma decrypt_empty (kp : KeyPair) : decrypt [] kp = Err io_EOF.
Proof. now rewrite decrypt_eq. Qed.

Lemma decrypt_short_iv (blob : bytes) (kp : KeyPair) :
  0 < length blob < 16 -> decrypt blob kp = Err ErrIncompleteIV.
Proof.
  intros Hlen. rewrite decrypt_eq.
  replace (length blob =? 0) with false by (symmetry; apply Nat.eqb_neq; lia).
  replace (length blob <? 16) with true by (symmetry; apply Nat.ltb_lt; lia).
  reflexivity.
Qed.

Lemma decrypt_short_ciphertext (blob : bytes) (kp : KeyPair) :
  16 <= length blob < 32 -> decrypt blob kp = Err ErrIncompleteCiphertext.
Proof.
  intros Hlen. rewrite decrypt_eq.
  replace (length blob =? 0) with false by (symmetry; apply Nat.eqb_neq; lia).
  replace (length blob <? 16) with false by (symmetry; apply Nat.ltb_ge; lia).
  replace (length blob - 16 <? 16) with true by (symmetry; apply Nat.ltb_lt; lia).
  reflexivity.
Qed.

(** Past the framing checks, [decrypt] is the three library calls. *)
Lemma decrypt_framed (iv ct : bytes) (kp : KeyPair) :
  length iv = 16 -> 16 <= length ct ->
  decrypt (iv ++ ct) kp =
    b <- aes_NewCipher (EncKey kp) ;;
    bm <- NewCBCDecrypter b iv ;;
    CryptBlocks bm (make (length ct)) ct.
Proof.
  intros Hiv Hct. rewrite decrypt_eq, length_app, Hiv.
  replace (16 + length ct =? 0) with false by (symmetry; apply Nat.eqb_neq; lia).
  replace (16 + length ct <? 16) with false by (symmetry; apply Nat.ltb_ge; lia).
  replace (16 + length ct - 16) with (length ct) by lia.
  replace (length ct <? 16) with false by (symmetry; apply Nat.ltb_ge; lia).
  assert (Ef : firstn 16 (iv ++ ct) = iv).
  { rewrite <- Hiv, firstn_app, Nat.sub_diag, firstn_all. apply app_nil_r. }
  assert (Es : skipn 16 (iv ++ ct) = ct).
  { now rewrite <- Hiv, skipn_app, Nat.sub_diag, skipn_all. }
  now rewrite Ef, Es.
Qed.

Lemma aes_NewCipher_32 (key : bytes) :
  length key = 32 -> aes_NewCipher key = Ok (aes_Decrypt key).
Proof. intros Hk. unfold aes_NewCipher. now rewrite Hk. Qed.

Lemma decrypt_bad_key (iv ct : bytes) (kp : KeyPair) :
  length iv = 16 -> 16 <= length ct ->
  length (EncKey kp) <> 16 -> length (EncKey kp) <> 24 ->
  length (EncKey kp) <> 32 ->
  decrypt (iv ++ ct) kp = Err (aes_KeySizeError (length (EncKey kp))).
Proof.
  intros Hiv Hct H16 H24 H32. rewrite decrypt_framed by assumption.
  unfold aes_NewCipher.
  apply Nat.eqb_neq in H16, H24, H32. now rewrite H16, H24, H32.
Qed.

Lemma decrypt_partial_block (iv ct : bytes) (kp : KeyPair) :
  length iv = 16 -> 16 <= length ct -> length (EncKey kp) = 32 ->
  length ct mod 16 <> 0 ->
  decrypt (iv ++ ct) kp = Panic input_not_full_blocks.
Proof.
  intros Hiv Hct Hkey Hmod. rewrite decrypt_framed by assumption.
  rewrite aes_NewCipher_32 by assumption. cbn [bind].
  unfold NewCBCDecrypter, aes_BlockSize. rewrite Hiv. cbn [Nat.eqb negb bind].
  unfold CryptBlocks, aes_BlockSize.
  apply Nat.eqb_neq in Hmod. now rewrite Hmod.
Qed.

Lemma decrypt_blocks (iv ct : bytes) (kp : KeyPair) :
  length iv = 16 -> 16 <= length ct -> length (EncKey kp) = 32 ->
  length ct mod 16 = 0 ->
  decrypt (iv ++ ct) kp = Ok (cbc_plaintext (EncKey kp) iv ct).
Proof.
  intros Hiv Hct Hkey Hmod. rewrite decrypt_framed by assumption.
  rewrite aes_NewCipher_32 by assumption. cbn [bind].
  unfold NewCBCDecrypter, aes_BlockSize. rewrite Hiv. cbn [Nat.eqb negb bind].
  unfold CryptBlocks, aes_BlockSize. rewrite Hmod. cbn [Nat.eqb negb].
  rewrite make_length, Nat.ltb_irrefl. cbn [bm_b bm_iv].
  rewrite skipn_all2 by (rewrite make_length; lia).
  now rewrite app_nil_r.
Qed.

End Decrypt.

(** ** DecryptOPData01 *)

Lemma OPData01Magic_length : length OPData01Magic = 8.
Proof. reflexivity. Qed.

Lemma skipn_make (k n : nat) : skipn k (make n) = make (n - k).
Proof.
  unfold make. revert n. induction k as [|k IH]; intros [|n]; cbn; auto.
Qed.

Lemma copy_short (n : nat) (src : bytes) :
  length src < n ->
  copy (make n) src = (src ++ make (n - length src), length src).
Proof.
  intros Hlen. unfold copy. rewrite make_length.
  rewrite firstn_all2 by lia. rewrite Nat.min_r by lia.
  now rewrite skipn_make.
Qed.

Lemma copy_full (n : nat) (src : bytes) :
  n <= length src -> copy (make n) src = (firstn n src, n).
Proof.
  intros Hlen. unfold copy. rewrite make_length.
  rewrite skipn_all2 by (rewrite make_length; lia).
  rewrite app_nil_r. now rewrite Nat.min_l by lia.
Qed.

(** What [binary.Read] leaves and returns, by the number of unread bytes. *)
Lemma binary_Read_uint64_eq (r : reader) :
  binary_Read_uint64 r =
    if length r =? 0 then (r, Err io_EOF)
    else if length r <? 8 then ([], Err io_ErrUnexpectedEOF)
    else (skipn 8 r, Ok (LittleEndian_Uint64 (firstn 8 r))).
Proof.
  unfold binary_Read_uint64, ReadFull.
  destruct (Nat.lt_ge_cases (length r) 8) as [Hs|Hl].
  - rewrite copy_short by assumption. rewrite make_length.
    replace (length r <? 8) with true by (symmetry; now apply Nat.ltb_lt).
    rewrite skipn_all.
    destruct (length r =? 0) eqn:E0; [|reflexivity].
    apply Nat.eqb_eq in E0. now destruct r.
  - rewrite copy_full by assumption. rewrite make_length.
    rewrite Nat.ltb_irrefl.
    replace (length r =? 0) with false by (symmetry; apply Nat.eqb_neq; lia).
    replace (length r <? 8) with false by (symmetry; now apply Nat.ltb_ge).
    reflexivity.
Qed.

(** The front-padding length is between 1 and 16, so [uint64] arithmetic
    does not wrap. *)
Lemma padLen_eq (ptLen : Z) :
  wrap64 (Z.of_nat aes_BlockSize - ptLen mod Z.of_nat aes_BlockSize)
  = (16 - ptLen mod 16)%Z.
Proof.
  unfold wrap64, aes_BlockSize. change (Z.of_nat 16) with 16%Z.
  pose proof (Z.mod_pos_bound ptLen 16 ltac:(lia)).
  apply Z.mod_small. lia.
Qed.

Section OPData01.
Context `{HMAC_SHA256} `{AES}.

(** The steps of [DecryptOPData01] after authentication, on the verified
    payload. *)
Lemma DecryptOPData01_eq (opdata : bytes) (kp : KeyPair) :
  DecryptOPData01 opdata kp =
    payload <- authenticate opdata kp ;;
    if length payload =? 0 then Err io_EOF
    else if length payload <? 8 then Err ErrIncompleteMagic
    else if negb (bytes_Equal (firstn 8 payload) OPData01Magic)
    then Err ErrInvalidMagic
    else if length payload =? 8 then Err io_EOF
    else if length payload <? 16 then Err io_ErrUnexpectedEOF
    else
      let ptLen := LittleEndian_Uint64 (firstn 8 (skipn 8 payload)) in
      plaintext <- decrypt (skipn 16 payload) kp ;;
      slice plaintext (16 - ptLen mod 16) (Z.of_nat (length plaintext)).
Proof.
  unfold DecryptOPData01.
  destruct (authenticate opdata kp) as [payload| |]; cbn [bind]; try reflexivity.
  unfold NewBuffer, Buffer_Read. rewrite OPData01Magic_length, make_length.
  destruct (length payload =? 0) eqn:E0; [reflexivity|].
  apply Nat.eqb_neq in E0.
  destruct (Nat.lt_ge_cases (length payload) 8) as [Hs|Hl].
  - rewrite copy_short by assumption.
    rewrite length_app, make_length.
    replace (length payload <? 8) with true by (symmetry; now apply Nat.ltb_lt).
    replace (length payload =? length payload + (8 - length payload))
      with false by (symmetry; apply Nat.eqb_neq; lia).
    reflexivity.
  - rewrite copy_full by assumption.
    rewrite length_firstn, Nat.min_l by assumption.
    replace (length payload <? 8) with false by (symmetry; now apply Nat.ltb_ge).
    cbn [Nat.eqb negb].
    destruct (negb (bytes_Equal (firstn 8 payload) OPData01Magic));
      [reflexivity|].
    rewrite binary_Read_uint64_eq, length_skipn.
    destruct (length payload =? 8) eqn:E8.
    + apply Nat.eqb_eq in E8. rewrite E8. reflexivity.
    + apply Nat.eqb_neq in E8.
      replace (length payload - 8 =? 0) with false
        by (symmetry; apply Nat.eqb_neq; lia).
      destruct (length payload <? 16) eqn:E16.
      * apply Nat.ltb_lt in E16.
        replace (length payload - 8 <? 8) with true
          by (symmetry; apply Nat.ltb_lt; lia).
        reflexivity.
      * apply Nat.ltb_ge in E16.
        replace (length payload - 8 <? 8) with false
          by (symmetry; apply Nat.ltb_ge; lia).
        cbn [bind]. unfold ReadAll. rewrite skipn_skipn. cbn [Nat.add].
        destruct (decrypt (skipn 16 payload) kp); cbn [bind]; try reflexivity.
        now rewrite padLen_eq.
Qed.

End OPData01.

Lemma byte_Z_nonneg (b : byte) : (0 <= byte_Z b)%Z.
Proof. unfold byte_Z. apply N2Z.is_nonneg. Qed.

Lemma LittleEndian_Uint64_nonneg (b : bytes) : (0 <= LittleEndian_Uint64 b)%Z.
Proof.
  unfold LittleEndian_Uint64.
  repeat (apply Z.lor_nonneg; split);
    try apply Z.shiftl_nonneg; apply byte_Z_nonneg.
Qed.

Section DecryptInversion.
Context `{AES}.

(** When [decrypt] returns a plaintext, the blob held an IV and a whole,
    positive number of blocks, and the plaintext is as long as they are. *)
Lemma decrypt_Ok_inv (blob pt : bytes) (kp : KeyPair) :
  decrypt blob kp = Ok pt ->
  32 <= length blob /\ (length blob - 16) mod 16 = 0 /\
  pt = cbc_plaintext (EncKey kp) (firstn 16 blob) (skipn 16 blob) /\
  length pt = length blob - 16.
Proof.
  rewrite decrypt_eq.
  destruct (length blob =? 0); [discriminate|].
  destruct (length blob <? 16) eqn:E1; [discriminate|].
  destruct (length blob - 16 <? 16) eqn:E2; [discriminate|].
  apply Nat.ltb_ge in E1, E2.
  unfold aes_NewCipher. destruct (_ || _); [|discriminate]. cbn [bind].
  unfold NewCBCDecrypter. destruct (negb _) eqn:Eiv; [discriminate|].
  cbn [bind]. unfold CryptBlocks, aes_BlockSize. cbn [bm_b bm_iv].
  rewrite length_skipn.
  destruct (negb (_ =? 0)) eqn:Em; [discriminate|].
  apply negb_false_iff, Nat.eqb_eq in Em.
  rewrite make_length, Nat.ltb_irrefl.
  rewrite (skipn_all2 (make (length blob - 16)))
    by (rewrite make_length; lia).
  rewrite app_nil_r.
  replace (cbc_chain (aes_Decrypt (EncKey kp)) (firstn 16 blob)
             (skipn 16 blob) ((length blob - 16) / 16))
    with (cbc_plaintext (EncKey kp) (firstn 16 blob) (skipn 16 blob))
    by (unfold cbc_plaintext, aes_BlockSize; now rewrite length_skipn).
  intros E. apply Ok_inj in E. subst pt.
  split; [lia|]. split; [assumption|]. split; [reflexivity|].
  rewrite cbc_plaintext_length; rewrite ?length_skipn, ?length_firstn;
    auto; lia.
Qed.

Lemma decrypt_errors (blob : bytes) (kp : KeyPair) (e : error) :
  decrypt blob kp = Err e ->
  e = io_EOF \/ e = ErrIncompleteIV \/ e = ErrIncompleteCiphertext \/
  e = aes_KeySizeError (length (EncKey kp)).
Proof.
  rewrite decrypt_eq.
  destruct (length blob =? 0); [intros [= <-]; tauto|].
  destruct (length blob <? 16); [intros [= <-]; tauto|].
  destruct (length blob - 16 <? 16); [intros [= <-]; tauto|].
  unfold aes_NewCipher. destruct (_ || _); [|intros [= <-]; tauto].
  cbn [bind]. unfold NewCBCDecrypter. destruct (negb _); [discriminate|].
  cbn [bind]. unfold CryptBlocks.
  destruct (negb _); [discriminate|]. destruct (_ <? _); discriminate.
Qed.

End DecryptInversion.

Section OPData01Framed.
Context `{HMAC_SHA256} `{AES}.

(** A container with the magic and a length field in place, under its own
    tag: what is left is decryption and the removal of the padding. *)
Lemma DecryptOPData01_framed (kp : KeyPair) (lenb rest : bytes) :
  length lenb = 8 ->
  let payload := OPData01Magic ++ lenb ++ rest in
  DecryptOPData01 (payload ++ hmac_sha256 (MACKey kp) payload) kp =
    plaintext <- decrypt rest kp ;;
    slice plaintext (16 - LittleEndian_Uint64 lenb mod 16)
          (Z.of_nat (length plaintext)).
Proof.
  intros Hlenb payload.
  rewrite DecryptOPData01_eq, authenticate_sealed. cbn [bind].
  assert (Hlen : length payload = 16 + length rest).
  { unfold payload. rewrite !length_app, OPData01Magic_length. lia. }
  assert (Emagic : firstn 8 payload = OPData01Magic).
  { unfold payload. rewrite <- OPData01Magic_length at 1.
    rewrite firstn_app, Nat.sub_diag, firstn_all. apply app_nil_r. }
  assert (Erest : skipn 8 payload = lenb ++ rest).
  { unfold payload. rewrite <- OPData01Magic_length at 1.
    now rewrite skipn_app, Nat.sub_diag, skipn_all. }
  assert (Elenb : firstn 8 (skipn 8 payload) = lenb).
  { rewrite Erest, <- Hlenb, firstn_app, Nat.sub_diag, firstn_all.
    apply app_nil_r. }
  assert (Ect : skipn 16 payload = rest).
  { change 16 with (8 + 8). rewrite <- skipn_skipn, Erest, <- Hlenb.
    now rewrite skipn_app, Nat.sub_diag, skipn_all. }
  rewrite Hlen, Emagic, bytes_Equal_refl, Elenb, Ect.
  reflexivity.
Qed.

(** With a 32-byte key and whole blocks, decoding succeeds, whatever the
    length field says. *)
Lemma DecryptOPData01_blocks (kp : KeyPair) (lenb iv ct : bytes) :
  length (EncKey kp) = 32 ->
  length lenb = 8 -> length iv = 16 ->
  16 <= length ct -> length ct mod 16 = 0 ->
  let payload := OPData01Magic ++ lenb ++ iv ++ ct in
  let padLen := (16 - LittleEndian_Uint64 lenb mod 16)%Z in
  let out := skipn (Z.to_nat padLen) (cbc_plaintext (EncKey kp) iv ct) in
  DecryptOPData01 (payload ++ hmac_sha256 (MACKey kp) payload) kp = Ok out /\
  Z.of_nat (length out) = (Z.of_nat (length ct) - padLen)%Z.
Proof.
  intros Hkey Hlenb Hiv Hct Hmod payload padLen out.
  pose proof (Z.mod_pos_bound (LittleEndian_Uint64 lenb) 16 ltac:(lia)) as Hb.
  assert (Hpt : length (cbc_plaintext (EncKey kp) iv ct) = length ct)
    by now apply cbc_plaintext_length.
  split.
  - unfold payload. rewrite DecryptOPData01_framed by assumption.
    rewrite decrypt_blocks by assumption. cbn [bind].
    apply slice_to_end. rewrite Hpt. lia.
  - unfold out. rewrite length_skipn, Hpt. unfold padLen. lia.
Qed.

End OPData01Framed.

(** * The specification, claim by claim *)

(** ** The authenticator *)

(** C4: on a blob of fewer than 32 bytes [authenticate] fails with
    [ErrIncompleteMAC], whatever the MAC function and the keys are (no tag is
    computed or compared).  On a longer blob it fails with [ErrIncorrectMAC]
    when the HMAC-SHA-256 of the first [len - 32] bytes under [MACKey]
    differs from the last 32 bytes, and returns exactly those first
    [len - 32] bytes when the two agree.  [EncKey] plays no part: nothing is
    decrypted. *)
Theorem authenticate_spec `{HMAC_SHA256} (blob : bytes) (kp : KeyPair) :
  let data := firstn (length blob - 32) blob in
  let tag := skipn (length blob - 32) blob in
  (length blob < 32 -> authenticate blob kp = Err ErrIncompleteMAC) /\
  (32 <= length blob -> hmac_sha256 (MACKey kp) data <> tag ->
   authenticate blob kp = Err ErrIncorrectMAC) /\
  (32 <= length blob -> hmac_sha256 (MACKey kp) data = tag ->
   authenticate blob kp = Ok data) /\
  (forall encKey : bytes,
     authenticate blob (mkKeyPair encKey (MACKey kp)) = authenticate blob kp).
Proof.
  intros data tag. split; [|split; [|split]].
  - apply authenticate_short.
  - intros Hlen Hneq. rewrite authenticate_long by assumption. cbv zeta.
    fold data tag.
    replace (bytes_Equal tag (hmac_sha256 (MACKey kp) data)) with false;
      [reflexivity|].
    symmetry. apply bytes_Equal_false_iff. congruence.
  - intros Hlen Heq. rewrite authenticate_long by assumption. cbv zeta.
    fold data tag. rewrite Heq. now rewrite bytes_Equal_refl.
  - intros encKey. reflexivity.
Qed.

Section AuthenticateRun.
Import Standin.

Lemma authenticate_spec_witness :
  authenticate (len5 ++ hmac_sha256 (MACKey kp0) len5)
               kp0 = Ok len5 /\
  authenticate (len5 ++ make 32) kp0 = Err ErrIncorrectMAC /\
  authenticate (make 31) kp0 = Err ErrIncompleteMAC.
Proof.
  split; [|split].
  - destruct (authenticate_spec (len5 ++ hmac_sha256 (MACKey kp0) len5) kp0)
      as (_ & _ & Hok & _).
    apply Hok; vm_compute; [lia | reflexivity].
  - destruct (authenticate_spec (len5 ++ make 32) kp0) as (_ & Hbad & _).
    apply Hbad; vm_compute; [lia | discriminate].
  - destruct (authenticate_spec (make 31) kp0) as (Hshort & _).
    apply Hshort. vm_compute. lia.
Defined.

End AuthenticateRun.

(** ** The OPData01 container *)

(** C1: let [kp] have a 32-byte [EncKey], and let [opdata] be a payload
    followed by its HMAC-SHA-256 tag under [kp.MACKey], the payload being
    ["opdata01"], an 8-byte little-endian [ptLen], a 16-byte IV and a
    ciphertext of [ptLen + padLen] bytes, with [padLen = 16 - ptLen mod 16].
    Then [DecryptOPData01] succeeds and returns the CBC plaintext without its
    first [padLen] bytes, which is [ptLen] bytes long.  When [ptLen] is a
    multiple of 16, [padLen] is 16: one whole block of padding. *)
Theorem DecryptOPData01_wellformed `{HMAC_SHA256} `{AES} (kp : KeyPair)
  (opdata payload tag lenb iv ct : bytes) :
  length (EncKey kp) = 32 ->
  opdata = payload ++ tag ->
  tag = hmac_sha256 (MACKey kp) payload ->
  payload = OPData01Magic ++ lenb ++ iv ++ ct ->
  length lenb = 8 -> length iv = 16 ->
  let ptLen := LittleEndian_Uint64 lenb in
  let padLen := (16 - ptLen mod 16)%Z in
  Z.of_nat (length ct) = (ptLen + padLen)%Z ->
  let out := skipn (Z.to_nat padLen) (cbc_plaintext (EncKey kp) iv ct) in
  DecryptOPData01 opdata kp = Ok out /\
  Z.of_nat (length out) = ptLen /\
  (ptLen mod 16 = 0 -> padLen = 16)%Z.
Proof.
  intros Hkey -> -> -> Hlenb Hiv ptLen padLen Hct out.
  pose proof (LittleEndian_Uint64_nonneg lenb) as Hnn. fold ptLen in Hnn.
  pose proof (Z.mod_pos_bound ptLen 16 ltac:(lia)) as Hb.
  pose proof (Z.div_mod ptLen 16 ltac:(lia)) as Hdm.
  assert (Hq : (0 <= ptLen / 16)%Z) by (apply Z.div_pos; lia).
  assert (Hge : 16 <= length ct) by (unfold padLen in Hct; lia).
  assert (Hmod : length ct mod 16 = 0).
  { apply Nat2Z.inj. rewrite Nat2Z.inj_mod, Hct. unfold padLen.
    replace (ptLen + (16 - ptLen mod 16))%Z with ((ptLen / 16 + 1) * 16)%Z
      by lia.
    now rewrite Z.mod_mul by lia. }
  destruct (DecryptOPData01_blocks kp lenb iv ct Hkey Hlenb Hiv Hge Hmod)
    as [E L].
  split; [exact E|]. split.
  - fold ptLen padLen out in L. lia.
  - unfold padLen. lia.
Qed.

Section OPData01Run.
Import Standin.

Lemma DecryptOPData01_wellformed_witness :
  let payload := OPData01Magic ++ len5 ++ iv0 ++ ct1 in
  let out := skipn 11 (cbc_plaintext (EncKey kp0) iv0 ct1) in
  DecryptOPData01 (payload ++ hmac_sha256 (MACKey kp0) payload) kp0 = Ok out /\
  Z.of_nat (length out) = 5%Z.
Proof.
  cbv zeta.
  destruct (DecryptOPData01_wellformed kp0 _ _ _ len5 iv0 ct1
              eq_refl eq_refl eq_refl eq_refl eq_refl eq_refl)
    as (E & L & _).
  - vm_compute. reflexivity.
  - split; [exact E | exact L].
Defined.

End OPData01Run.

(** C9: when the tag verifies, the payload starts with ["opdata01"] and 8
    length bytes, and [decrypt] accepts the rest, [DecryptOPData01] returns
    the plaintext without its first [16 - ptLen mod 16] bytes, which is
    [len(ciphertext) - (16 - ptLen mod 16)] bytes long, the ciphertext being
    what follows the 16-byte IV; and it returns in no other case.  Two
    length fields that agree modulo 16 give the same outcome.  The length of
    the result is never compared with [ptLen]: under a 32-byte key any
    positive whole number of blocks decodes, and a container that declares 0
    bytes over two blocks returns 16 bytes. *)
Theorem DecryptOPData01_length `{HMAC_SHA256} `{AES} (kp : KeyPair) :
  (forall lenb rest pt : bytes,
     length lenb = 8 -> decrypt rest kp = Ok pt ->
     let payload := OPData01Magic ++ lenb ++ rest in
     let padLen := (16 - LittleEndian_Uint64 lenb mod 16)%Z in
     let out := skipn (Z.to_nat padLen) pt in
     DecryptOPData01 (payload ++ hmac_sha256 (MACKey kp) payload) kp = Ok out /\
     Z.of_nat (length out) = (Z.of_nat (length rest - 16) - padLen)%Z) /\
  (forall opdata out : bytes,
     DecryptOPData01 opdata kp = Ok out ->
     exists lenb rest pt : bytes,
       let payload := OPData01Magic ++ lenb ++ rest in
       opdata = payload ++ hmac_sha256 (MACKey kp) payload /\
       length lenb = 8 /\ decrypt rest kp = Ok pt) /\
  (forall lenb lenb' rest : bytes,
     length lenb = 8 -> length lenb' = 8 ->
     (LittleEndian_Uint64 lenb mod 16 = LittleEndian_Uint64 lenb' mod 16)%Z ->
     let payload := OPData01Magic ++ lenb ++ rest in
     let payload' := OPData01Magic ++ lenb' ++ rest in
     DecryptOPData01 (payload ++ hmac_sha256 (MACKey kp) payload) kp
     = DecryptOPData01 (payload' ++ hmac_sha256 (MACKey kp) payload') kp) /\
  (length (EncKey kp) = 32 ->
   (forall lenb iv ct : bytes,
      length lenb = 8 -> length iv = 16 ->
      16 <= length ct -> length ct mod 16 = 0 ->
      let payload := OPData01Magic ++ lenb ++ iv ++ ct in
      exists out : bytes,
        DecryptOPData01 (payload ++ hmac_sha256 (MACKey kp) payload) kp
        = Ok out) /\
   (exists lenb iv ct out : bytes,
      let payload := OPData01Magic ++ lenb ++ iv ++ ct in
      let ptLen := LittleEndian_Uint64 lenb in
      length lenb = 8 /\ length iv = 16 /\
      Z.of_nat (length ct) <> (ptLen + (16 - ptLen mod 16))%Z /\
      DecryptOPData01 (payload ++ hmac_sha256 (MACKey kp) payload) kp = Ok out /\
      Z.of_nat (length out) <> ptLen)).
Proof.
  split; [|split; [|split]].
  - intros lenb rest pt Hl Ed payload padLen out.
    pose proof (Z.mod_pos_bound (LittleEndian_Uint64 lenb) 16 ltac:(lia)) as Hb.
    destruct (decrypt_Ok_inv _ _ _ Ed) as (Hlen & _ & _ & Hpt).
    split.
    + unfold payload. rewrite DecryptOPData01_framed by assumption.
      rewrite Ed. cbn [bind]. apply slice_to_end. lia.
    + unfold out, padLen. rewrite length_skipn, Hpt. lia.
  - intros opdata out E. rewrite DecryptOPData01_eq in E.
    destruct (authenticate opdata kp) as [payload| |] eqn:Ea;
      cbn [bind] in E; try discriminate.
    apply authenticate_Ok_inv in Ea.
    destruct (length payload =? 0); [discriminate|].
    destruct (length payload <? 8); [discriminate|].
    destruct (negb _) eqn:Em; [discriminate|].
    apply negb_false_iff, bytes_Equal_true_iff in Em.
    destruct (length payload =? 8); [discriminate|].
    destruct (length payload <? 16) eqn:E16; [discriminate|].
    apply Nat.ltb_ge in E16. cbv zeta in E.
    destruct (decrypt (skipn 16 payload) kp) as [pt| |] eqn:Ed;
      cbn [bind] in E; try discriminate.
    exists (firstn 8 (skipn 8 payload)), (skipn 16 payload), pt.
    cbv zeta.
    assert (Epay : OPData01Magic ++ firstn 8 (skipn 8 payload)
                   ++ skipn 16 payload = payload).
    { rewrite <- Em. change 16 with (8 + 8).
      rewrite <- (skipn_skipn 8 8 payload), firstn_skipn.
      apply firstn_skipn. }
    rewrite Epay. split; [exact Ea|]. split; [|exact Ed].
    rewrite length_firstn, length_skipn. lia.
  - intros lenb lenb' rest Hl Hl' Hmod payload payload'.
    unfold payload, payload'.
    rewrite !DecryptOPData01_framed by assumption. now rewrite Hmod.
  - intros Hkey. split.
    + intros lenb iv ct Hl Hiv Hge Hmod payload.
      destruct (DecryptOPData01_blocks kp lenb iv ct Hkey Hl Hiv Hge Hmod)
        as [E _].
      eexists. exact E.
    + exists (make 8), (make 16), (make 32).
      destruct (DecryptOPData01_blocks kp (make 8) (make 16) (make 32) Hkey
                  eq_refl eq_refl ltac:(vm_compute; lia) eq_refl) as [E L].
      eexists. cbv zeta.
      split; [reflexivity|]. split; [reflexivity|].
      split; [vm_compute; discriminate|]. split; [exact E|].
      rewrite L. vm_compute. discriminate.
Qed.

Section OPData01LengthRun.
Import Standin.

Lemma DecryptOPData01_length_witness :
  let payload := OPData01Magic ++ len5 ++ iv0 ++ ct1 ++ ct1 in
  let pt := cbc_plaintext (EncKey kp0) iv0 (ct1 ++ ct1) in
  DecryptOPData01 (payload ++ hmac_sha256 (MACKey kp0) payload) kp0
  = Ok (skipn 11 pt) /\
  length (skipn 11 pt) = 21.
Proof.
  cbv zeta.
  destruct (DecryptOPData01_length kp0) as (Hfwd & _).
  destruct (Hfwd len5 (iv0 ++ ct1 ++ ct1)
              (cbc_plaintext (EncKey kp0) iv0 (ct1 ++ ct1)) eq_refl)
    as [E _].
  - vm_compute. reflexivity.
  - split; [exact E | reflexivity].
Defined.

End OPData01LengthRun.

(** C6 (divergence): an authenticated payload of 1 to 7 bytes fails with
    [ErrIncompleteMagic], and one of at least 8 bytes that does not start
    with ["opdata01"] fails with [ErrInvalidMagic]; but the empty payload,
    which is also shorter than 8 bytes, fails with [io.EOF]: the buffer
    reports the end of its input before the length of the read is looked
    at. *)
Theorem DecryptOPData01_magic `{HMAC_SHA256} `{AES} (kp : KeyPair) :
  DecryptOPData01 ([] ++ hmac_sha256 (MACKey kp) []) kp = Err io_EOF /\
  (forall payload : bytes,
     0 < length payload < 8 ->
     DecryptOPData01 (payload ++ hmac_sha256 (MACKey kp) payload) kp
     = Err ErrIncompleteMagic) /\
  (forall payload : bytes,
     8 <= length payload -> firstn 8 payload <> OPData01Magic ->
     DecryptOPData01 (payload ++ hmac_sha256 (MACKey kp) payload) kp
     = Err ErrInvalidMagic).
Proof.
  split; [|split].
  - now rewrite DecryptOPData01_eq, authenticate_sealed.
  - intros payload Hlen.
    rewrite DecryptOPData01_eq, authenticate_sealed. cbn [bind].
    replace (length payload =? 0) with false
      by (symmetry; apply Nat.eqb_neq; lia).
    replace (length payload <? 8) with true
      by (symmetry; apply Nat.ltb_lt; lia).
    reflexivity.
  - intros payload Hlen Hmagic.
    rewrite DecryptOPData01_eq, authenticate_sealed. cbn [bind].
    replace (length payload =? 0) with false
      by (symmetry; apply Nat.eqb_neq; lia).
    replace (length payload <? 8) with false
      by (symmetry; apply Nat.ltb_ge; lia).
    apply bytes_Equal_false_iff in Hmagic. now rewrite Hmagic.
Qed.

(** ** The block cipher decryptor *)

(** C2 (divergence): a blob of 1 to 15 bytes fails with [ErrIncompleteIV] and
    one of 16 to 31 bytes with [ErrIncompleteCiphertext]; but the empty blob
    fails with [io.EOF], and under a 32-byte key a ciphertext of 16 bytes or
    more that is not a whole number of blocks makes [CryptBlocks] panic:
    only [len(ciphertext) < 16] is checked. *)
Theorem decrypt_framing `{AES} (kp : KeyPair) :
  decrypt [] kp = Err io_EOF /\
  (forall blob : bytes,
     0 < length blob < 16 -> decrypt blob kp = Err ErrIncompleteIV) /\
  (forall blob : bytes,
     16 <= length blob < 32 -> decrypt blob kp = Err ErrIncompleteCiphertext) /\
  (length (EncKey kp) = 32 ->
   forall blob : bytes,
     32 <= length blob -> (length blob - 16) mod 16 <> 0 ->
     decrypt blob kp = Panic input_not_full_blocks) /\
  (length (EncKey kp) = 32 ->
   decrypt (make 33) kp = Panic input_not_full_blocks).
Proof.
  assert (Hpanic : length (EncKey kp) = 32 ->
                   forall blob : bytes,
                     32 <= length blob -> (length blob - 16) mod 16 <> 0 ->
                     decrypt blob kp = Panic input_not_full_blocks).
  { intros Hkey blob Hlen Hmod.
    rewrite <- (firstn_skipn 16 blob).
    apply decrypt_partial_block; rewrite ?length_firstn, ?length_skipn;
      try assumption; lia. }
  split; [apply decrypt_empty|].
  split; [intros blob; apply decrypt_short_iv|].
  split; [intros blob; apply decrypt_short_ciphertext|].
  split; [exact Hpanic|].
  intros Hkey. apply (Hpanic Hkey); rewrite make_length.
  - lia.
  - vm_compute. discriminate.
Qed.

(** ** Item keys *)

Section ItemKey.
Context `{HMAC_SHA256} `{AES}.

(** On an IV and ciphertext under their tag, [DecryptItemKey] is [decrypt]
    followed by the two slices. *)
Lemma DecryptItemKey_sealed (data : bytes) (kp : KeyPair) :
  DecryptItemKey (data ++ hmac_sha256 (MACKey kp) data) kp =
    plaintext <- decrypt data kp ;;
    ek <- slice plaintext 0 EncKeySize ;;
    mk <- slice plaintext EncKeySize (EncKeySize + MACKeySize) ;;
    Ok (mkKeyPair ek mk).
Proof. unfold DecryptItemKey. now rewrite authenticate_sealed. Qed.

(** The two slices of a plaintext of 64 bytes or more. *)
Lemma key_slices (pt : bytes) :
  64 <= length pt ->
  (ek <- slice pt 0 EncKeySize ;;
   mk <- slice pt EncKeySize (EncKeySize + MACKeySize) ;;
   Ok (mkKeyPair ek mk))
  = Ok (mkKeyPair (firstn 32 pt) (firstn 32 (skipn 32 pt))).
Proof.
  intros Hlen. unfold EncKeySize, MACKeySize.
  rewrite slice_from_0 by lia. cbn [bind].
  rewrite slice_Ok by lia. reflexivity.
Qed.

(** [DecryptItemKey] returns only key pairs cut from a plaintext of 64
    bytes or more. *)
Lemma DecryptItemKey_Ok_inv (itemKey : bytes) (kp itemKP : KeyPair) :
  DecryptItemKey itemKey kp = Ok itemKP ->
  exists pt : bytes,
    64 <= length pt /\
    itemKP = mkKeyPair (firstn 32 pt) (firstn 32 (skipn 32 pt)).
Proof.
  unfold DecryptItemKey.
  destruct (authenticate itemKey kp) as [data| |]; cbn [bind]; try discriminate.
  destruct (decrypt data kp) as [pt| |]; cbn [bind]; try discriminate.
  destruct (Z_lt_ge_dec (Z.of_nat (length pt)) 64) as [Hs|Hl].
  - intros E. exfalso. unfold EncKeySize, MACKeySize in E.
    destruct (slice pt 0 32); cbn [bind] in E; try discriminate.
    rewrite slice_Panic in E by (cbn; lia). discriminate.
  - rewrite key_slices by lia. intros E. apply Ok_inj in E.
    exists pt. split; [lia | congruence].
Qed.

End ItemKey.

(** C3 (divergence): what [DecryptItemKey] does on blobs whose tag verifies
    but whose authenticated part is not 80 bytes.  On an empty one it fails
    with [io.EOF]; under a 32-byte key, on an IV and one to three blocks it
    panics in a slice expression, on an IV and a partial block it panics in
    [CryptBlocks], and on an IV and more than four blocks it succeeds, with
    the key pair cut from the first 64 bytes of the plaintext. *)
Theorem DecryptItemKey_malformed `{HMAC_SHA256} `{AES} (kp : KeyPair) :
  DecryptItemKey ([] ++ hmac_sha256 (MACKey kp) []) kp = Err io_EOF /\
  (length (EncKey kp) = 32 ->
   (forall iv ct : bytes,
      length iv = 16 -> 16 <= length ct < 64 -> length ct mod 16 = 0 ->
      DecryptItemKey ((iv ++ ct) ++ hmac_sha256 (MACKey kp) (iv ++ ct)) kp
      = Panic slice_bounds_out_of_range) /\
   (forall iv ct : bytes,
      length iv = 16 -> 16 <= length ct -> length ct mod 16 <> 0 ->
      DecryptItemKey ((iv ++ ct) ++ hmac_sha256 (MACKey kp) (iv ++ ct)) kp
      = Panic input_not_full_blocks) /\
   (forall iv ct : bytes,
      length iv = 16 -> 64 < length ct -> length ct mod 16 = 0 ->
      let pt := cbc_plaintext (EncKey kp) iv ct in
      DecryptItemKey ((iv ++ ct) ++ hmac_sha256 (MACKey kp) (iv ++ ct)) kp
      = Ok (mkKeyPair (firstn 32 pt) (firstn 32 (skipn 32 pt))))).
Proof.
  split.
  - rewrite DecryptItemKey_sealed. now rewrite decrypt_empty.
  - intros Hkey. split; [|split].
    + intros iv ct Hiv Hlen Hmod.
      rewrite DecryptItemKey_sealed, decrypt_blocks by (assumption || lia).
      cbn [bind]. unfold EncKeySize, MACKeySize.
      pose proof (cbc_plaintext_length (EncKey kp) iv ct Hiv Hmod) as Hpt.
      destruct (Nat.lt_ge_cases (length ct) 32) as [H16|H32].
      * now rewrite slice_Panic by lia.
      * rewrite slice_from_0 by lia. cbn [bind].
        now rewrite slice_Panic by (rewrite Hpt; lia).
    + intros iv ct Hiv Hlen Hmod.
      rewrite DecryptItemKey_sealed.
      now rewrite decrypt_partial_block by assumption.
    + intros iv ct Hiv Hlen Hmod pt.
      rewrite DecryptItemKey_sealed, decrypt_blocks by (assumption || lia).
      cbn [bind]. apply key_slices. unfold pt.
      rewrite cbc_plaintext_length by assumption. lia.
Qed.

(** C5: on a 112-byte blob [iv ++ ct ++ tag], with a 16-byte IV, 64 bytes of
    ciphertext and the tag of [iv ++ ct] under the master [MACKey], if AES-CBC
    under the master [EncKey] and [iv] decrypts [ct] to [K], then
    [DecryptItemKey] returns the key pair [K[0:32]], [K[32:64]]: the two
    halves of the 64-byte [K] itself, with no hash applied. *)
Theorem DecryptItemKey_wellformed `{HMAC_SHA256} `{AES} (kp : KeyPair)
  (itemKey iv ct tag K : bytes) :
  itemKey = iv ++ ct ++ tag ->
  length iv = 16 -> length ct = 64 -> length itemKey = 112 ->
  tag = hmac_sha256 (MACKey kp) (iv ++ ct) ->
  (b <- aes_NewCipher (EncKey kp) ;;
   bm <- NewCBCDecrypter b iv ;;
   CryptBlocks bm (make (length ct)) ct) = Ok K ->
  DecryptItemKey itemKey kp
  = Ok (mkKeyPair (firstn 32 K) (firstn 32 (skipn 32 K))) /\
  firstn 32 K ++ firstn 32 (skipn 32 K) = K.
Proof.
  intros -> Hiv Hct _ -> HK.
  assert (Ed : decrypt (iv ++ ct) kp = Ok K)
    by (rewrite decrypt_framed by lia; exact HK).
  destruct (decrypt_Ok_inv _ _ _ Ed) as (_ & _ & _ & HlenK).
  rewrite length_app, Hiv, Hct in HlenK. cbn in HlenK.
  split.
  - rewrite app_assoc, DecryptItemKey_sealed, Ed. cbn [bind].
    apply key_slices. lia.
  - rewrite (firstn_all2 (skipn 32 K)) by (rewrite length_skipn; lia).
    apply firstn_skipn.
Qed.

Section ItemKeyRun.
Import Standin.

Lemma DecryptItemKey_wellformed_witness :
  let ct := ct1 ++ ct1 ++ ct1 ++ ct1 in
  let K := cbc_plaintext (EncKey kp0) iv0 ct in
  DecryptItemKey (iv0 ++ ct ++ hmac_sha256 (MACKey kp0) (iv0 ++ ct)) kp0
  = Ok (mkKeyPair (firstn 32 K) (firstn 32 (skipn 32 K))).
Proof.
  cbv zeta.
  refine (proj1 (DecryptItemKey_wellformed kp0 _ iv0 (ct1 ++ ct1 ++ ct1 ++ ct1)
                   (hmac_sha256 (MACKey kp0) (iv0 ++ ct1 ++ ct1 ++ ct1 ++ ct1))
                   (cbc_plaintext (EncKey kp0) iv0 (ct1 ++ ct1 ++ ct1 ++ ct1))
                   eq_refl eq_refl eq_refl _ eq_refl _));
    vm_compute; reflexivity.
Defined.

End ItemKeyRun.

(** ** Key derivation *)

Section Derivation.
Context `{HMAC_SHA512}.

Lemma pbkdf2_loop_length (password : bytes) (count : nat) :
  forall U T : bytes,
    length T = 64 -> length (pbkdf2_loop password count U T) = 64.
Proof.
  induction count as [|count IH]; intros U T HT; cbn [pbkdf2_loop].
  - exact HT.
  - apply IH. rewrite xor_bytes_length, HT, hmac_sha512_Size. reflexivity.
Qed.

Lemma pbkdf2_Key_length (password salt : bytes) (iter : Z) :
  length (pbkdf2_Key password salt iter) = 64.
Proof.
  unfold pbkdf2_Key. rewrite length_firstn.
  rewrite pbkdf2_loop_length by apply hmac_sha512_Size. reflexivity.
Qed.

(** An iteration count below 2 leaves the first block of the pseudorandom
    function as it is. *)
Lemma pbkdf2_Key_one (password salt : bytes) (iter : Z) :
  (iter <= 1)%Z ->
  pbkdf2_Key password salt iter
  = hmac_sha512 password (salt ++ [x00; x00; x00; x01]).
Proof.
  intros Hiter. unfold pbkdf2_Key.
  replace (Z.to_nat (iter - 1)) with 0 by lia. cbn [pbkdf2_loop].
  apply firstn_all2. now rewrite hmac_sha512_Size.
Qed.

End Derivation.

(** The two halves of 64 bytes. *)
Lemma halves_Ok (data : bytes) :
  length data = 64 ->
  (ek <- slice data 0 32 ;; mk <- slice data 32 64 ;; Ok (mkKeyPair ek mk))
  = Ok (mkKeyPair (firstn 32 data) (firstn 32 (skipn 32 data))).
Proof.
  intros Hlen.
  rewrite slice_from_0 by lia. cbn [bind].
  rewrite slice_Ok by lia. reflexivity.
Qed.

Lemma halves_length (data : bytes) :
  64 <= length data ->
  length (firstn 32 data) = 32 /\ length (firstn 32 (skipn 32 data)) = 32.
Proof.
  intros Hlen. rewrite !length_firstn, length_skipn. lia.
Qed.

(** [ComputeDerivedKeys] cannot fail: the PBKDF2 output has 64 bytes. *)
Lemma ComputeDerivedKeys_eq `{HMAC_SHA512} (pass : string) (salt : bytes)
  (nIters : Z) :
  ComputeDerivedKeys pass salt nIters
  = Ok (mkKeyPair
          (firstn 32 (pbkdf2_Key (list_byte_of_string pass) salt nIters))
          (firstn 32
             (skipn 32 (pbkdf2_Key (list_byte_of_string pass) salt nIters)))).
Proof.
  unfold ComputeDerivedKeys. apply halves_Ok, pbkdf2_Key_length.
Qed.

(** An [int] in range is not changed by wrapping, and wrapping gives an
    [int] in range. *)
Lemma wrap_int_small (intSize z : Z) :
  intSize = 32%Z \/ intSize = 64%Z ->
  (- 2 ^ (intSize - 1) <= z <= MaxInt intSize)%Z ->
  wrap_int intSize z = z.
Proof.
  unfold wrap_int, MaxInt. intros [-> | ->] Hz.
  - change (2 ^ (32 - 1))%Z with 2147483648%Z in *.
    change (2 ^ 32)%Z with 4294967296%Z.
    rewrite Z.mod_small by lia. lia.
  - change (2 ^ (64 - 1))%Z with 9223372036854775808%Z in *.
    change (2 ^ 64)%Z with 18446744073709551616%Z.
    rewrite Z.mod_small by lia. lia.
Qed.

Lemma wrap_int_range (intSize z : Z) :
  intSize = 32%Z \/ intSize = 64%Z ->
  (- 2 ^ (intSize - 1) <= wrap_int intSize z <= MaxInt intSize)%Z.
Proof.
  unfold wrap_int, MaxInt. intros [-> | ->].
  - change (2 ^ (32 - 1))%Z with 2147483648%Z.
    change (2 ^ 32)%Z with 4294967296%Z.
    pose proof (Z.mod_pos_bound (z + 2147483648) 4294967296 ltac:(lia)).
    lia.
  - change (2 ^ (64 - 1))%Z with 9223372036854775808%Z.
    change (2 ^ 64)%Z with 18446744073709551616%Z.
    pose proof (Z.mod_pos_bound (z + 9223372036854775808)
                  18446744073709551616 ltac:(lia)).
    lia.
Qed.

Section CountedLoop.
Context `{HMAC_SHA512}.

(** Below [math.MaxInt] the counter reaches [iter + 1] without wrapping, and
    the loop has then done what [pbkdf2_loop] does. *)
Lemma pbkdf2_counted_ends (intSize : Z) (password : bytes) (count : nat) :
  intSize = 32%Z \/ intSize = 64%Z ->
  forall (n iter : Z) (U T : bytes),
    (n + Z.of_nat count = iter + 1)%Z ->
    (iter < MaxInt intSize)%Z -> (- 2 ^ (intSize - 1) <= n)%Z ->
    pbkdf2_counted intSize password (S count) n iter U T
    = Some (pbkdf2_loop password count U T).
Proof.
  intros Hsize. induction count as [|count IH]; intros n iter U T Hn Hiter Hlo.
  - cbn [pbkdf2_counted pbkdf2_loop].
    replace (n <=? iter)%Z with false by (symmetry; apply Z.leb_gt; lia).
    reflexivity.
  - cbn [pbkdf2_counted pbkdf2_loop].
    replace (n <=? iter)%Z with true by (symmetry; apply Z.leb_le; lia).
    rewrite wrap_int_small by (assumption || lia).
    apply IH; lia.
Qed.

(** At [iter = math.MaxInt] no number of rounds ends the loop. *)
Lemma pbkdf2_counted_MaxInt (intSize : Z) (password : bytes) (fuel : nat) :
  intSize = 32%Z \/ intSize = 64%Z ->
  forall (n : Z) (U T : bytes),
    (- 2 ^ (intSize - 1) <= n <= MaxInt intSize)%Z ->
    pbkdf2_counted intSize password fuel n (MaxInt intSize) U T = None.
Proof.
  intros Hsize. induction fuel as [|fuel IH]; intros n U T Hn.
  - reflexivity.
  - cbn [pbkdf2_counted].
    replace (n <=? MaxInt intSize)%Z with true
      by (symmetry; apply Z.leb_le; lia).
    apply IH. now apply wrap_int_range.
Qed.

End CountedLoop.

(** C7 (as amended): [ComputeDerivedKeys] rejects no iteration count.  For
    every passphrase and salt and every count below [math.MaxInt], positive
    or not, the loop of [pbkdf2.Key] ends and [ComputeDerivedKeys] returns the
    key pair made of the two halves of the 64-byte PBKDF2-HMAC-SHA-512
    output; with a count of zero or less the output is that of one
    iteration. *)
Theorem ComputeDerivedKeys_total `{HMAC_SHA512} (intSize : Z) (pass : string)
  (salt : bytes) (nIters : Z) :
  intSize = 32%Z \/ intSize = 64%Z ->
  (nIters < MaxInt intSize)%Z ->
  let password := list_byte_of_string pass in
  let T := hmac_sha512 password (salt ++ [x00; x00; x00; x01]) in
  let data := pbkdf2_Key password salt nIters in
  (exists fuel : nat,
     pbkdf2_counted intSize password fuel 2 nIters T T
     = Some (pbkdf2_loop password (Z.to_nat (nIters - 1)) T T)) /\
  ComputeDerivedKeys pass salt nIters
  = Ok (mkKeyPair (firstn 32 data) (firstn 32 (skipn 32 data))) /\
  length data = 64 /\
  ((nIters <= 0)%Z ->
   ComputeDerivedKeys pass salt nIters = ComputeDerivedKeys pass salt 1).
Proof.
  intros Hsize Hiter password T data.
  assert (Hlen : length data = 64) by apply pbkdf2_Key_length.
  split; [|split; [|split]].
  - destruct (Z_le_gt_dec nIters 0) as [Hle|Hgt].
    + exists 1. replace (Z.to_nat (nIters - 1)) with 0 by lia.
      cbn [pbkdf2_counted pbkdf2_loop].
      replace (2 <=? nIters)%Z with false by (symmetry; apply Z.leb_gt; lia).
      reflexivity.
    + exists (S (Z.to_nat (nIters - 1))).
      apply pbkdf2_counted_ends; try assumption; lia.
  - apply ComputeDerivedKeys_eq.
  - exact Hlen.
  - intros Hn. unfold ComputeDerivedKeys.
    now rewrite !pbkdf2_Key_one by lia.
Qed.

Section DerivationRun.
Import Standin.

(** C7, counterexample: with zero iterations a key pair comes back. *)
Lemma ComputeDerivedKeys_zero_iterations :
  (0 <= 0)%Z /\
  exists kp : KeyPair,
    ComputeDerivedKeys "passphrase" (list_byte_of_string "salt") 0 = Ok kp.
Proof.
  split; [lia|]. eexists. vm_compute. reflexivity.
Qed.

Lemma ComputeDerivedKeys_total_witness :
  (-3 < MaxInt 64)%Z /\
  ComputeDerivedKeys "passphrase" (list_byte_of_string "salt") (-3)
  = ComputeDerivedKeys "passphrase" (list_byte_of_string "salt") 1.
Proof.
  assert (Hiter : (-3 < MaxInt 64)%Z) by (vm_compute; reflexivity).
  split; [exact Hiter|].
  destruct (ComputeDerivedKeys_total 64 "passphrase"
              (list_byte_of_string "salt") (-3) (or_intror eq_refl) Hiter)
    as (_ & _ & _ & Hle).
  apply Hle. lia.
Defined.

End DerivationRun.

(** ** Key pairs *)

(** C8: a key pair returned by [ComputeDerivedKeys], [DecryptMasterKeys] or
    [DecryptItemKey] has a 32-byte [EncKey] and a 32-byte [MACKey]. *)
Theorem KeyPair_sizes `{HMAC_SHA256} `{HMAC_SHA512} `{SHA512} `{AES}
  (kp : KeyPair) :
  (forall (pass : string) (salt : bytes) (nIters : Z),
     ComputeDerivedKeys pass salt nIters = Ok kp ->
     length (EncKey kp) = 32 /\ length (MACKey kp) = 32) /\
  (forall (opdata : bytes) (derivedKeys : KeyPair),
     DecryptMasterKeys opdata derivedKeys = Ok kp ->
     length (EncKey kp) = 32 /\ length (MACKey kp) = 32) /\
  (forall (itemKey : bytes) (master : KeyPair),
     DecryptItemKey itemKey master = Ok kp ->
     length (EncKey kp) = 32 /\ length (MACKey kp) = 32).
Proof.
  split; [|split].
  - intros pass salt nIters E.
    rewrite ComputeDerivedKeys_eq in E. apply Ok_inj in E. subst kp.
    apply halves_length. rewrite pbkdf2_Key_length. lia.
  - intros opdata derivedKeys E. unfold DecryptMasterKeys in E.
    destruct (DecryptOPData01 opdata derivedKeys) as [mkData| |];
      cbn [bind] in E; try discriminate.
    rewrite halves_Ok in E by apply Sum512_Size.
    apply Ok_inj in E. subst kp.
    apply halves_length. rewrite Sum512_Size. lia.
  - intros itemKey master E.
    apply DecryptItemKey_Ok_inv in E. destruct E as (pt & Hlen & ->).
    now apply halves_length.
Qed.

Section KeyPairRun.
Import Standin.

Lemma KeyPair_sizes_witness :
  let K := cbc_plaintext (EncKey kp0) iv0 (ct1 ++ ct1 ++ ct1 ++ ct1) in
  length (firstn 32 K) = 32 /\ length (firstn 32 (skipn 32 K)) = 32.
Proof.
  cbv zeta.
  destruct (KeyPair_sizes
              (mkKeyPair
                 (firstn 32 (cbc_plaintext (EncKey kp0) iv0
                               (ct1 ++ ct1 ++ ct1 ++ ct1)))
                 (firstn 32 (skipn 32 (cbc_plaintext (EncKey kp0) iv0
                                         (ct1 ++ ct1 ++ ct1 ++ ct1))))))
    as (_ & _ & Hitem).
  apply (Hitem (iv0 ++ (ct1 ++ ct1 ++ ct1 ++ ct1)
                ++ hmac_sha256 (MACKey kp0) (iv0 ++ ct1 ++ ct1 ++ ct1 ++ ct1))
               kp0).
  vm_compute. reflexivity.
Defined.

End KeyPairRun.

(** ** Errors *)

Section Errors.
Context `{HMAC_SHA256} `{AES}.

(** The errors [DecryptOPData01] can return. *)
Lemma DecryptOPData01_errors (opdata : bytes) (kp : KeyPair) (e : error) :
  DecryptOPData01 opdata kp = Err e ->
  In e [ErrIncompleteMAC; ErrIncorrectMAC; io_EOF; ErrIncompleteMagic;
        ErrInvalidMagic; io_ErrUnexpectedEOF; ErrIncompleteIV;
        ErrIncompleteCiphertext; aes_KeySizeError (length (EncKey kp))].
Proof.
  rewrite DecryptOPData01_eq.
  destruct (authenticate opdata kp) as [payload| |] eqn:Ea; cbn [bind].
  - destruct (length payload =? 0); [intros [= <-]; cbn; tauto|].
    destruct (length payload <? 8); [intros [= <-]; cbn; tauto|].
    destruct (negb _); [intros [= <-]; cbn; tauto|].
    destruct (length payload =? 8); [intros [= <-]; cbn; tauto|].
    destruct (length payload <? 16); [intros [= <-]; cbn; tauto|].
    cbv zeta.
    destruct (decrypt (skipn 16 payload) kp) as [pt| |] eqn:Ed; cbn [bind].
    + intros E. now apply slice_not_Err in E.
    + intros [= <-]. apply decrypt_errors in Ed. cbn.
      destruct Ed as [->|[->|[->| ->]]]; tauto.
    + discriminate.
  - intros [= <-]. apply authenticate_errors in Ea. cbn.
    destruct Ea as [->| ->]; tauto.
  - discriminate.
Qed.

(** The errors [DecryptItemKey] can return. *)
Lemma DecryptItemKey_errors (itemKey : bytes) (kp : KeyPair) (e : error) :
  DecryptItemKey itemKey kp = Err e ->
  In e [ErrIncompleteMAC; ErrIncorrectMAC; io_EOF; ErrIncompleteIV;
        ErrIncompleteCiphertext; aes_KeySizeError (length (EncKey kp))].
Proof.
  unfold DecryptItemKey.
  destruct (authenticate itemKey kp) as [data| |] eqn:Ea; cbn [bind].
  - destruct (decrypt data kp) as [pt| |] eqn:Ed; cbn [bind].
    + destruct (slice pt 0 EncKeySize) eqn:E1; cbn [bind].
      * destruct (slice pt EncKeySize (EncKeySize + MACKeySize)) eqn:E2;
          cbn [bind]; try discriminate.
        now apply slice_not_Err in E2.
      * now apply slice_not_Err in E1.
      * discriminate.
    + intros [= <-]. apply decrypt_errors in Ed. cbn.
      destruct Ed as [->|[->|[->| ->]]]; tauto.
    + discriminate.
  - intros [= <-]. apply authenticate_errors in Ea. cbn.
    destruct Ea as [->| ->]; tauto.
  - discriminate.
Qed.

End Errors.

(** C10: no function of the package returns [ErrIncompleteHeader]. *)
Theorem ErrIncompleteHeader_unused `{HMAC_SHA256} `{HMAC_SHA512} `{SHA512}
  `{AES} :
  (forall (pass : string) (salt : bytes) (nIters : Z),
     ComputeDerivedKeys pass salt nIters <> Err ErrIncompleteHeader) /\
  (forall (opdata : bytes) (derivedKeys : KeyPair),
     DecryptMasterKeys opdata derivedKeys <> Err ErrIncompleteHeader) /\
  (forall (opdata : bytes) (kp : KeyPair),
     DecryptOPData01 opdata kp <> Err ErrIncompleteHeader) /\
  (forall (itemKey : bytes) (kp : KeyPair),
     DecryptItemKey itemKey kp <> Err ErrIncompleteHeader) /\
  (forall (blob : bytes) (kp : KeyPair),
     authenticate blob kp <> Err ErrIncompleteHeader) /\
  (forall (blob : bytes) (kp : KeyPair),
     decrypt blob kp <> Err ErrIncompleteHeader).
Proof.
  assert (Hop : forall (opdata : bytes) (kp : KeyPair),
             DecryptOPData01 opdata kp <> Err ErrIncompleteHeader).
  { intros opdata kp E. apply DecryptOPData01_errors in E. cbn in E.
    repeat (destruct E as [E|E]; [discriminate|]). exact E. }
  split; [|split; [|split; [|split; [|split]]]].
  - intros pass salt nIters. rewrite ComputeDerivedKeys_eq. discriminate.
  - intros opdata derivedKeys. unfold DecryptMasterKeys.
    specialize (Hop opdata derivedKeys).
    destruct (DecryptOPData01 opdata derivedKeys) as [mkData| |]; cbn [bind].
    + rewrite halves_Ok by apply Sum512_Size. discriminate.
    + congruence.
    + discriminate.
  - exact Hop.
  - intros itemKey kp E. apply DecryptItemKey_errors in E. cbn in E.
    repeat (destruct E as [E|E]; [discriminate|]). exact E.
  - intros blob kp E. apply authenticate_errors in E.
    destruct E; discriminate.
  - intros blob kp E. apply decrypt_errors in E.
    destruct E as [E|[E|[E|E]]]; discriminate.
Qed.

(** ** Further properties of the decoders *)

(** X1: a plaintext returned by [decrypt] is as long as the ciphertext, which
    follows a 16-byte IV and is a positive whole number of blocks. *)
Theorem decrypt_length `{AES} (blob pt : bytes) (kp : KeyPair) :
  decrypt blob kp = Ok pt ->
  length blob = 16 + length pt /\ 16 <= length pt /\ length pt mod 16 = 0.
Proof.
  intros E. destruct (decrypt_Ok_inv _ _ _ E) as (Hlen & Hmod & _ & Hpt).
  rewrite Hpt. split; [lia|]. split; [lia | exact Hmod].
Qed.

(** X2: a tag that is not the HMAC-SHA-256 of what precedes it makes the three
    decoders fail with [ErrIncorrectMAC]. *)
Theorem wrong_tag_rejected `{HMAC_SHA256} `{AES} `{SHA512} (data tag : bytes)
  (kp : KeyPair) :
  length tag = 32 -> tag <> hmac_sha256 (MACKey kp) data ->
  DecryptOPData01 (data ++ tag) kp = Err ErrIncorrectMAC /\
  DecryptMasterKeys (data ++ tag) kp = Err ErrIncorrectMAC /\
  DecryptItemKey (data ++ tag) kp = Err ErrIncorrectMAC.
Proof.
  intros Hlen Htag.
  assert (Ea : authenticate (data ++ tag) kp = Err ErrIncorrectMAC).
  { rewrite authenticate_app by assumption.
    apply bytes_Equal_false_iff in Htag. now rewrite Htag. }
  assert (Eo : DecryptOPData01 (data ++ tag) kp = Err ErrIncorrectMAC)
    by now rewrite DecryptOPData01_eq, Ea.
  split; [exact Eo|]. split.
  - unfold DecryptMasterKeys. now rewrite Eo.
  - unfold DecryptItemKey. now rewrite Ea.
Qed.

(** X3: an input of fewer than 32 bytes makes the three decoders fail with
    [ErrIncompleteMAC], whatever it starts with. *)
Theorem truncated_rejected `{HMAC_SHA256} `{AES} `{SHA512} (blob : bytes)
  (kp : KeyPair) :
  length blob < 32 ->
  DecryptOPData01 blob kp = Err ErrIncompleteMAC /\
  DecryptMasterKeys blob kp = Err ErrIncompleteMAC /\
  DecryptItemKey blob kp = Err ErrIncompleteMAC.
Proof.
  intros Hlen.
  pose proof (authenticate_short blob kp Hlen) as Ea.
  assert (Eo : DecryptOPData01 blob kp = Err ErrIncompleteMAC)
    by now rewrite DecryptOPData01_eq, Ea.
  split; [exact Eo|]. split.
  - unfold DecryptMasterKeys. now rewrite Eo.
  - unfold DecryptItemKey. now rewrite Ea.
Qed.

(** X5: a decoder returns a result only on an input that ends with the
    HMAC-SHA-256 tag of what precedes it. *)
Theorem results_are_authenticated `{HMAC_SHA256} `{AES} `{SHA512}
  (blob : bytes) (kp : KeyPair) :
  (exists out, DecryptOPData01 blob kp = Ok out) \/
  (exists keys, DecryptMasterKeys blob kp = Ok keys) \/
  (exists keys, DecryptItemKey blob kp = Ok keys) ->
  exists data : bytes, blob = data ++ hmac_sha256 (MACKey kp) data.
Proof.
  assert (Hop : forall out, DecryptOPData01 blob kp = Ok out ->
                exists data, blob = data ++ hmac_sha256 (MACKey kp) data).
  { intros out E. unfold DecryptOPData01 in E.
    destruct (authenticate blob kp) as [data| |] eqn:Ea;
      cbn [bind] in E; try discriminate.
    exists data. now apply authenticate_Ok_inv. }
  intros [[out E]|[[keys E]|[keys E]]].
  - exact (Hop out E).
  - unfold DecryptMasterKeys in E.
    destruct (DecryptOPData01 blob kp) as [mkData| |] eqn:Eo;
      cbn [bind] in E; try discriminate.
    exact (Hop mkData eq_refl).
  - unfold DecryptItemKey in E.
    destruct (authenticate blob kp) as [data| |] eqn:Ea;
      cbn [bind] in E; try discriminate.
    exists data. now apply authenticate_Ok_inv.
Qed.

Section FurtherRun.
Import Standin.

Lemma decrypt_length_witness :
  length (iv0 ++ ct1) = 16 + length (cbc_plaintext (EncKey kp0) iv0 ct1).
Proof.
  apply (decrypt_length (iv0 ++ ct1) (cbc_plaintext (EncKey kp0) iv0 ct1) kp0).
  vm_compute. reflexivity.
Defined.

Lemma wrong_tag_rejected_witness :
  DecryptOPData01 ((OPData01Magic ++ len5 ++ iv0 ++ ct1) ++ make 32) kp0
  = Err ErrIncorrectMAC.
Proof.
  apply (wrong_tag_rejected (OPData01Magic ++ len5 ++ iv0 ++ ct1) (make 32) kp0).
  - reflexivity.
  - vm_compute. discriminate.
Defined.

Lemma truncated_rejected_witness :
  DecryptOPData01 (firstn 7 OPData01Magic) kp0 = Err ErrIncompleteMAC.
Proof.
  apply (truncated_rejected (firstn 7 OPData01Magic) kp0). vm_compute. lia.
Defined.

Lemma results_are_authenticated_witness :
  exists data : bytes,
    (iv0 ++ ct1 ++ ct1 ++ ct1 ++ ct1)
    ++ hmac_sha256 (MACKey kp0) (iv0 ++ ct1 ++ ct1 ++ ct1 ++ ct1)
    = data ++ hmac_sha256 (MACKey kp0) data.
Proof.
  apply (results_are_authenticated
           ((iv0 ++ ct1 ++ ct1 ++ ct1 ++ ct1)
            ++ hmac_sha256 (MACKey kp0) (iv0 ++ ct1 ++ ct1 ++ ct1 ++ ct1))
           kp0).
  right. right. eexists. vm_compute. reflexivity.
Defined.

End FurtherRun.

(** ** decrypt, past the framing checks *)

Lemma valid_key_size_iff (k : nat) :
  (k =? 16) || (k =? 24) || (k =? 32) = true <-> k = 16 \/ k = 24 \/ k = 32.
Proof.
  rewrite !orb_true_iff, !Nat.eqb_eq. tauto.
Qed.

Section DecryptOutcome.
Context `{AES}.

(** On a blob of 32 bytes or more the outcome is decided by the key size
    first and by the shape of the ciphertext second. *)
Lemma decrypt_past_framing (blob : bytes) (kp : KeyPair) :
  32 <= length blob ->
  decrypt blob kp =
    let k := length (EncKey kp) in
    if (k =? 16) || (k =? 24) || (k =? 32) then
      if (length blob - 16) mod 16 =? 0
      then Ok (cbc_plaintext (EncKey kp) (firstn 16 blob) (skipn 16 blob))
      else Panic input_not_full_blocks
    else Err (aes_KeySizeError k).
Proof.
  intros Hlen. rewrite decrypt_eq.
  replace (length blob =? 0) with false by (symmetry; apply Nat.eqb_neq; lia).
  replace (length blob <? 16) with false by (symmetry; apply Nat.ltb_ge; lia).
  replace (length blob - 16 <? 16) with false
    by (symmetry; apply Nat.ltb_ge; lia).
  unfold aes_NewCipher. cbv zeta.
  destruct (_ || _); [|reflexivity]. cbn [bind].
  unfold NewCBCDecrypter, aes_BlockSize.
  rewrite length_firstn, Nat.min_l by lia. cbn [Nat.eqb negb bind].
  unfold CryptBlocks, aes_BlockSize. cbn [bm_b bm_iv].
  rewrite length_skipn.
  destruct ((length blob - 16) mod 16 =? 0); cbn [negb]; [|reflexivity].
  rewrite make_length, Nat.ltb_irrefl.
  rewrite (skipn_all2 (make (length blob - 16)))
    by (rewrite make_length; lia).
  rewrite app_nil_r. unfold cbc_plaintext, aes_BlockSize.
  now rewrite length_skipn.
Qed.

(** Below 32 bytes [decrypt] returns one of three errors. *)
Lemma decrypt_before_framing (blob : bytes) (kp : KeyPair) :
  length blob < 32 ->
  decrypt blob kp = Err io_EOF \/ decrypt blob kp = Err ErrIncompleteIV \/
  decrypt blob kp = Err ErrIncompleteCiphertext.
Proof.
  intros Hlen. rewrite decrypt_eq.
  destruct (length blob =? 0); [tauto|].
  destruct (length blob <? 16) eqn:E; [tauto|].
  apply Nat.ltb_ge in E.
  replace (length blob - 16 <? 16) with true
    by (symmetry; apply Nat.ltb_lt; lia).
  tauto.
Qed.

End DecryptOutcome.

(** X6: [decrypt] returns a plaintext exactly when the blob has 32 bytes or
    more, what follows its first 16 bytes is a whole number of blocks, and
    [EncKey] has 16, 24 or 32 bytes; the plaintext is then the CBC decryption
    of those blocks with the first 16 bytes as IV. *)
Theorem decrypt_Ok_iff `{AES} (blob pt : bytes) (kp : KeyPair) :
  decrypt blob kp = Ok pt <->
  32 <= length blob /\ (length blob - 16) mod 16 = 0 /\
  (length (EncKey kp) = 16 \/ length (EncKey kp) = 24 \/
   length (EncKey kp) = 32) /\
  pt = cbc_plaintext (EncKey kp) (firstn 16 blob) (skipn 16 blob).
Proof.
  destruct (Nat.lt_ge_cases (length blob) 32) as [Hs|Hl].
  - split.
    + intros E.
      destruct (decrypt_before_framing blob kp Hs) as [E'|[E'|E']];
        rewrite E' in E; discriminate.
    + intros (Hlen & _). lia.
  - rewrite decrypt_past_framing by assumption. cbv zeta.
    destruct (_ || _) eqn:Ek.
    + apply valid_key_size_iff in Ek.
      destruct (_ =? 0) eqn:Em.
      * apply Nat.eqb_eq in Em. split.
        -- intros E. apply Ok_inj in E. auto.
        -- intros (_ & _ & _ & ->). reflexivity.
      * apply Nat.eqb_neq in Em. split; [discriminate|].
        intros (_ & Hm & _). contradiction.
    + split; [discriminate|]. intros (_ & _ & Hk & _).
      apply valid_key_size_iff in Hk. congruence.
Qed.

(** X7: on a blob of 32 bytes or more, an [EncKey] that has neither 16, 24
    nor 32 bytes makes [decrypt] fail with [aes.KeySizeError] of the key's
    length, also when the ciphertext ends in a partial block: the key is
    looked at before the blocks are. *)
Theorem decrypt_key_size_error `{AES} (blob : bytes) (kp : KeyPair) :
  32 <= length blob ->
  length (EncKey kp) <> 16 -> length (EncKey kp) <> 24 ->
  length (EncKey kp) <> 32 ->
  decrypt blob kp = Err (aes_KeySizeError (length (EncKey kp))).
Proof.
  intros Hlen H16 H24 H32. rewrite decrypt_past_framing by assumption.
  cbv zeta. apply Nat.eqb_neq in H16, H24, H32. now rewrite H16, H24, H32.
Qed.

(** X8: [decrypt] panics exactly when the blob has 32 bytes or more, the key
    has a size AES accepts and what follows the first 16 bytes is not a whole
    number of blocks; the panic is that of [CryptBlocks]. *)
Theorem decrypt_Panic_iff `{AES} (blob : bytes) (kp : KeyPair) (p : panic) :
  decrypt blob kp = Panic p <->
  32 <= length blob /\ (length blob - 16) mod 16 <> 0 /\
  (length (EncKey kp) = 16 \/ length (EncKey kp) = 24 \/
   length (EncKey kp) = 32) /\
  p = input_not_full_blocks.
Proof.
  destruct (Nat.lt_ge_cases (length blob) 32) as [Hs|Hl].
  - split.
    + intros E.
      destruct (decrypt_before_framing blob kp Hs) as [E'|[E'|E']];
        rewrite E' in E; discriminate.
    + intros (Hlen & _). lia.
  - rewrite decrypt_past_framing by assumption. cbv zeta.
    destruct (_ || _) eqn:Ek.
    + apply valid_key_size_iff in Ek.
      destruct (_ =? 0) eqn:Em.
      * apply Nat.eqb_eq in Em. split; [discriminate|].
        intros (_ & Hm & _). contradiction.
      * apply Nat.eqb_neq in Em. split.
        -- intros [= <-]. auto.
        -- intros (_ & _ & _ & ->). reflexivity.
    + split; [discriminate|]. intros (_ & _ & Hk & _).
      apply valid_key_size_iff in Hk. congruence.
Qed.

Section DecryptOutcomeRun.
Import Standin.

Lemma decrypt_Ok_iff_witness :
  decrypt (iv0 ++ ct1 ++ ct1) (mkKeyPair (make 24) [])
  = Ok (cbc_plaintext (make 24) iv0 (ct1 ++ ct1)).
Proof.
  apply (decrypt_Ok_iff (iv0 ++ ct1 ++ ct1)
           (cbc_plaintext (make 24) iv0 (ct1 ++ ct1))
           (mkKeyPair (make 24) [])).
  split; [vm_compute; lia|]. split; [reflexivity|].
  split; [right; left; reflexivity | reflexivity].
Defined.

Lemma decrypt_key_size_error_witness :
  decrypt (iv0 ++ ct1 ++ len5) (mkKeyPair len5 [])
  = Err (aes_KeySizeError 8).
Proof.
  apply (decrypt_key_size_error (iv0 ++ ct1 ++ len5) (mkKeyPair len5 []));
    vm_compute; (lia || discriminate).
Defined.

Lemma decrypt_Panic_iff_witness :
  decrypt (iv0 ++ ct1 ++ len5) kp0 = Panic input_not_full_blocks.
Proof.
  apply (decrypt_Panic_iff (iv0 ++ ct1 ++ len5) kp0 input_not_full_blocks).
  split; [vm_compute; lia|]. split; [vm_compute; discriminate|].
  split; [right; right; reflexivity | reflexivity].
Defined.

End DecryptOutcomeRun.

(** ** DecryptOPData01, outcome by outcome *)

Section OPData01Outcome.
Context `{HMAC_SHA256} `{AES}.

Lemma decrypt_Panic_inv (blob : bytes) (kp : KeyPair) (p : panic) :
  decrypt blob kp = Panic p ->
  32 <= length blob /\ (length blob - 16) mod 16 <> 0 /\
  p = input_not_full_blocks.
Proof.
  intros E. destruct (Nat.lt_ge_cases (length blob) 32) as [Hs|Hl].
  - destruct (decrypt_before_framing blob kp Hs) as [E'|[E'|E']];
      rewrite E' in E; discriminate.
  - rewrite decrypt_past_framing in E by assumption. cbv zeta in E.
    destruct (_ || _); [|discriminate].
    destruct (_ =? 0) eqn:Em; [discriminate|].
    apply Nat.eqb_neq in Em. split; [assumption|]. split; [assumption|].
    congruence.
Qed.

(** What a successful run of [DecryptOPData01] went through. *)
Lemma DecryptOPData01_Ok_inv (opdata out : bytes) (kp : KeyPair) :
  DecryptOPData01 opdata kp = Ok out ->
  exists lenb rest pt : bytes,
    opdata = (OPData01Magic ++ lenb ++ rest)
             ++ hmac_sha256 (MACKey kp) (OPData01Magic ++ lenb ++ rest) /\
    length lenb = 8 /\ decrypt rest kp = Ok pt /\
    out = skipn (Z.to_nat (16 - LittleEndian_Uint64 lenb mod 16)) pt.
Proof.
  intros E. rewrite DecryptOPData01_eq in E.
  destruct (authenticate opdata kp) as [payload| |] eqn:Ea;
    cbn [bind] in E; try discriminate.
  apply authenticate_Ok_inv in Ea.
  destruct (length payload =? 0); [discriminate|].
  destruct (length payload <? 8); [discriminate|].
  destruct (negb _) eqn:Em; [discriminate|].
  apply negb_false_iff, bytes_Equal_true_iff in Em.
  destruct (length payload =? 8); [discriminate|].
  destruct (length payload <? 16) eqn:E16; [discriminate|].
  apply Nat.ltb_ge in E16. cbv zeta in E.
  destruct (decrypt (skipn 16 payload) kp) as [pt| |] eqn:Ed;
    cbn [bind] in E; try discriminate.
  exists (firstn 8 (skipn 8 payload)), (skipn 16 payload), pt.
  assert (Epay : OPData01Magic ++ firstn 8 (skipn 8 payload)
                 ++ skipn 16 payload = payload).
  { rewrite <- Em. change 16 with (8 + 8).
    rewrite <- (skipn_skipn 8 8 payload), firstn_skipn.
    apply firstn_skipn. }
  rewrite Epay. split; [exact Ea|].
  split; [rewrite length_firstn, length_skipn; lia|].
  split; [exact Ed|].
  pose proof (Z.mod_pos_bound
                (LittleEndian_Uint64 (firstn 8 (skipn 8 payload))) 16
                ltac:(lia)) as Hb.
  destruct (decrypt_Ok_inv _ _ _ Ed) as (_ & _ & _ & Hpt).
  rewrite length_skipn in Hpt.
  destruct (decrypt_Ok_inv _ _ _ Ed) as (Hge & _).
  rewrite length_skipn in Hge.
  rewrite slice_to_end in E by lia. now apply Ok_inj in E.
Qed.

(** What a panic of [DecryptOPData01] went through: it is a panic of
    [decrypt], the slice at the end cannot go out of range. *)
Lemma DecryptOPData01_Panic_inv (opdata : bytes) (kp : KeyPair) (p : panic) :
  DecryptOPData01 opdata kp = Panic p ->
  exists payload : bytes,
    opdata = payload ++ hmac_sha256 (MACKey kp) payload /\
    16 <= length payload /\ decrypt (skipn 16 payload) kp = Panic p.
Proof.
  intros E. rewrite DecryptOPData01_eq in E.
  destruct (authenticate opdata kp) as [payload| |] eqn:Ea;
    cbn [bind] in E; try discriminate;
    [|now apply authenticate_no_panic in Ea].
  apply authenticate_Ok_inv in Ea.
  destruct (length payload =? 0); [discriminate|].
  destruct (length payload <? 8); [discriminate|].
  destruct (negb _); [discriminate|].
  destruct (length payload =? 8); [discriminate|].
  destruct (length payload <? 16) eqn:E16; [discriminate|].
  apply Nat.ltb_ge in E16. cbv zeta in E.
  exists payload. split; [exact Ea|]. split; [exact E16|].
  destruct (decrypt (skipn 16 payload) kp) as [pt| |] eqn:Ed;
    cbn [bind] in E; try discriminate; [|exact E].
  exfalso.
  pose proof (Z.mod_pos_bound
                (LittleEndian_Uint64 (firstn 8 (skipn 8 payload))) 16
                ltac:(lia)) as Hb.
  destruct (decrypt_Ok_inv _ _ _ Ed) as (Hge & _ & _ & Hpt).
  rewrite length_skipn in Hge, Hpt.
  rewrite slice_to_end in E by lia. discriminate.
Qed.

End OPData01Outcome.

(** X9: how [DecryptOPData01] fails on an authenticated payload that stops
    after the magic.  Nothing after the magic: [io.EOF]; 1 to 7 bytes of the
    length field: [io.ErrUnexpectedEOF]; the length field and nothing more:
    [io.EOF]; 1 to 15 bytes of IV: [ErrIncompleteIV]; an IV and fewer than 16
    bytes of ciphertext: [ErrIncompleteCiphertext]. *)
Theorem DecryptOPData01_header_errors `{HMAC_SHA256} `{AES} (kp : KeyPair) :
  let decode := fun payload : bytes =>
    DecryptOPData01 (payload ++ hmac_sha256 (MACKey kp) payload) kp in
  decode OPData01Magic = Err io_EOF /\
  (forall part : bytes,
     0 < length part < 8 ->
     decode (OPData01Magic ++ part) = Err io_ErrUnexpectedEOF) /\
  (forall lenb : bytes,
     length lenb = 8 -> decode (OPData01Magic ++ lenb) = Err io_EOF) /\
  (forall lenb part : bytes,
     length lenb = 8 -> 0 < length part < 16 ->
     decode (OPData01Magic ++ lenb ++ part) = Err ErrIncompleteIV) /\
  (forall lenb iv part : bytes,
     length lenb = 8 -> length iv = 16 -> length part < 16 ->
     decode (OPData01Magic ++ lenb ++ iv ++ part)
     = Err ErrIncompleteCiphertext).
Proof.
  cbv zeta. split; [|split; [|split; [|split]]].
  - now rewrite DecryptOPData01_eq, authenticate_sealed.
  - intros part Hlen.
    rewrite DecryptOPData01_eq, authenticate_sealed. cbn [bind].
    assert (Emagic : firstn 8 (OPData01Magic ++ part) = OPData01Magic).
    { rewrite <- OPData01Magic_length at 1.
      rewrite firstn_app, Nat.sub_diag, firstn_all. apply app_nil_r. }
    rewrite Emagic, bytes_Equal_refl, length_app, OPData01Magic_length.
    replace (8 + length part =? 8) with false
      by (symmetry; apply Nat.eqb_neq; lia).
    replace (8 + length part <? 16) with true
      by (symmetry; apply Nat.ltb_lt; lia).
    reflexivity.
  - intros lenb Hl. rewrite <- (app_nil_r lenb).
    rewrite DecryptOPData01_framed by assumption.
    now rewrite decrypt_empty.
  - intros lenb part Hl Hlen.
    rewrite DecryptOPData01_framed by assumption.
    now rewrite decrypt_short_iv by assumption.
  - intros lenb iv part Hl Hiv Hlen.
    rewrite DecryptOPData01_framed by assumption.
    now rewrite decrypt_short_ciphertext by (rewrite length_app; lia).
Qed.

(** X10: an input on which [DecryptOPData01] succeeds is 65 to 80 bytes longer
    than the result, and its length is a multiple of 16; the shortest one has
    80 bytes. *)
Theorem DecryptOPData01_overhead `{HMAC_SHA256} `{AES} (opdata out : bytes)
  (kp : KeyPair) :
  DecryptOPData01 opdata kp = Ok out ->
  65 + length out <= length opdata <= 80 + length out /\
  length opdata mod 16 = 0 /\ 80 <= length opdata.
Proof.
  intros E.
  destruct (DecryptOPData01_Ok_inv _ _ _ E)
    as (lenb & rest & pt & -> & Hl & Ed & ->).
  pose proof (Z.mod_pos_bound (LittleEndian_Uint64 lenb) 16 ltac:(lia)) as Hb.
  destruct (decrypt_Ok_inv _ _ _ Ed) as (Hge & Hmod & _ & Hpt).
  rewrite !length_app, hmac_sha256_Size, OPData01Magic_length, Hl.
  rewrite length_skipn, Hpt. split; [lia|]. split; [|lia].
  pose proof (Nat.div_mod_eq (length rest - 16) 16) as Hq.
  rewrite Hmod in Hq.
  replace (8 + (8 + length rest) + 32)
    with (0 + ((length rest - 16) / 16 + 4) * 16) by lia.
  apply Nat.Div0.mod_add.
Qed.

(** X11: [DecryptOPData01] panics only inside [CryptBlocks], and only on an
    input of 80 bytes or more whose length is not a multiple of 16; the slice
    that removes the padding is always in range. *)
Theorem DecryptOPData01_panic `{HMAC_SHA256} `{AES} (opdata : bytes)
  (kp : KeyPair) (p : panic) :
  DecryptOPData01 opdata kp = Panic p ->
  p = input_not_full_blocks /\ 80 <= length opdata /\
  length opdata mod 16 <> 0.
Proof.
  intros E.
  destruct (DecryptOPData01_Panic_inv _ _ _ E) as (payload & -> & H16 & Ed).
  destruct (decrypt_Panic_inv _ _ _ Ed) as (Hge & Hmod & ->).
  rewrite length_skipn in Hge, Hmod.
  rewrite length_app, hmac_sha256_Size.
  split; [reflexivity|]. split; [lia|].
  replace (length payload + 32)
    with (length payload - 16 - 16 + 4 * 16) by lia.
  now rewrite Nat.Div0.mod_add.
Qed.

Section OPData01OutcomeRun.
Import Standin.

Lemma DecryptOPData01_overhead_witness :
  65 + length (skipn 11 (cbc_plaintext (EncKey kp0) iv0 ct1))
  <= length ((OPData01Magic ++ len5 ++ iv0 ++ ct1)
             ++ hmac_sha256 (MACKey kp0) (OPData01Magic ++ len5 ++ iv0 ++ ct1)).
Proof.
  apply (DecryptOPData01_overhead
           ((OPData01Magic ++ len5 ++ iv0 ++ ct1)
            ++ hmac_sha256 (MACKey kp0) (OPData01Magic ++ len5 ++ iv0 ++ ct1))
           (skipn 11 (cbc_plaintext (EncKey kp0) iv0 ct1)) kp0).
  vm_compute. reflexivity.
Defined.

Lemma DecryptOPData01_panic_witness :
  length ((OPData01Magic ++ len5 ++ iv0 ++ ct1 ++ len5)
          ++ hmac_sha256 (MACKey kp0)
               (OPData01Magic ++ len5 ++ iv0 ++ ct1 ++ len5)) mod 16 <> 0.
Proof.
  apply (DecryptOPData01_panic
           ((OPData01Magic ++ len5 ++ iv0 ++ ct1 ++ len5)
            ++ hmac_sha256 (MACKey kp0)
                 (OPData01Magic ++ len5 ++ iv0 ++ ct1 ++ len5))
           kp0 input_not_full_blocks).
  vm_compute. reflexivity.
Defined.

End OPData01OutcomeRun.

(** ** Item keys, outcome by outcome *)

(** The plaintext of the first blocks does not depend on the blocks that
    follow. *)
Lemma cbc_chain_app (b : Block) (n1 : nat) :
  forall (prev s1 s2 : bytes) (n2 : nat),
    length s1 = 16 * n1 ->
    exists tail : bytes,
      cbc_chain b prev (s1 ++ s2) (n1 + n2) = cbc_chain b prev s1 n1 ++ tail.
Proof.
  induction n1 as [|n1 IH]; intros prev s1 s2 n2 Hlen.
  - eexists. reflexivity.
  - cbn [Nat.add cbc_chain]. unfold aes_BlockSize.
    assert (Ef : firstn 16 (s1 ++ s2) = firstn 16 s1).
    { rewrite firstn_app. replace (16 - length s1) with 0 by lia.
      apply app_nil_r. }
    assert (Es : skipn 16 (s1 ++ s2) = skipn 16 s1 ++ s2).
    { rewrite skipn_app. now replace (16 - length s1) with 0 by lia. }
    rewrite Ef, Es.
    destruct (IH (firstn 16 s1) (skipn 16 s1) s2 n2) as [tail Et].
    { rewrite length_skipn. lia. }
    exists tail. now rewrite Et, app_assoc.
Qed.

Section ItemKeyOutcome.
Context `{HMAC_SHA256} `{AES}.

Lemma decrypt_whole_blocks (iv ct : bytes) (kp : KeyPair) :
  length (EncKey kp) = 16 \/ length (EncKey kp) = 24 \/
  length (EncKey kp) = 32 ->
  length iv = 16 -> 16 <= length ct -> length ct mod 16 = 0 ->
  decrypt (iv ++ ct) kp = Ok (cbc_plaintext (EncKey kp) iv ct).
Proof.
  intros Hk Hiv Hct Hmod.
  rewrite decrypt_past_framing by (rewrite length_app; lia). cbv zeta.
  apply valid_key_size_iff in Hk. rewrite Hk.
  rewrite length_app, Hiv.
  replace (16 + length ct - 16) with (length ct) by lia.
  rewrite Hmod. cbn [Nat.eqb].
  assert (Ef : firstn 16 (iv ++ ct) = iv).
  { rewrite <- Hiv, firstn_app, Nat.sub_diag, firstn_all. apply app_nil_r. }
  assert (Es : skipn 16 (iv ++ ct) = ct).
  { now rewrite <- Hiv, skipn_app, Nat.sub_diag, skipn_all. }
  now rewrite Ef, Es.
Qed.

Lemma decrypt_Ok_key (blob pt : bytes) (kp : KeyPair) :
  decrypt blob kp = Ok pt ->
  length (EncKey kp) = 16 \/ length (EncKey kp) = 24 \/
  length (EncKey kp) = 32.
Proof.
  intros E. destruct (decrypt_Ok_inv _ _ _ E) as (Hlen & _).
  rewrite decrypt_past_framing in E by assumption. cbv zeta in E.
  destruct (_ || _) eqn:Ek; [|discriminate].
  now apply valid_key_size_iff.
Qed.

Lemma decrypt_no_KeySizeError (blob : bytes) (kp : KeyPair) (k : nat) :
  length (EncKey kp) = 16 \/ length (EncKey kp) = 24 \/
  length (EncKey kp) = 32 ->
  decrypt blob kp <> Err (aes_KeySizeError k).
Proof.
  intros Hk E. destruct (Nat.lt_ge_cases (length blob) 32) as [Hs|Hl].
  - destruct (decrypt_before_framing blob kp Hs) as [E'|[E'|E']];
      rewrite E' in E; discriminate.
  - rewrite decrypt_past_framing in E by assumption. cbv zeta in E.
    apply valid_key_size_iff in Hk. rewrite Hk in E.
    destruct (_ =? 0); discriminate.
Qed.

(** With a key AES accepts, an IV and four whole blocks or more under their
    tag give a key pair. *)
Lemma DecryptItemKey_whole_blocks (iv ct : bytes) (kp : KeyPair) :
  length (EncKey kp) = 16 \/ length (EncKey kp) = 24 \/
  length (EncKey kp) = 32 ->
  length iv = 16 -> 64 <= length ct -> length ct mod 16 = 0 ->
  DecryptItemKey ((iv ++ ct) ++ hmac_sha256 (MACKey kp) (iv ++ ct)) kp
  = Ok (mkKeyPair (firstn 32 (cbc_plaintext (EncKey kp) iv ct))
                  (firstn 32 (skipn 32 (cbc_plaintext (EncKey kp) iv ct)))).
Proof.
  intros Hk Hiv Hct Hmod.
  rewrite DecryptItemKey_sealed, decrypt_whole_blocks by (assumption || lia).
  cbn [bind]. apply key_slices.
  rewrite cbc_plaintext_length by assumption. lia.
Qed.

End ItemKeyOutcome.

(** X12: [DecryptItemKey] returns a key pair exactly when the blob is a
    16-byte IV and four or more whole blocks followed by their HMAC-SHA-256
    tag, and [EncKey] has 16, 24 or 32 bytes; the pair is then bytes [0:32]
    and [32:64] of the CBC plaintext. *)
Theorem DecryptItemKey_Ok_iff `{HMAC_SHA256} `{AES} (itemKey : bytes)
  (kp keys : KeyPair) :
  DecryptItemKey itemKey kp = Ok keys <->
  exists iv ct : bytes,
    itemKey = (iv ++ ct) ++ hmac_sha256 (MACKey kp) (iv ++ ct) /\
    length iv = 16 /\ 64 <= length ct /\ length ct mod 16 = 0 /\
    (length (EncKey kp) = 16 \/ length (EncKey kp) = 24 \/
     length (EncKey kp) = 32) /\
    keys = mkKeyPair (firstn 32 (cbc_plaintext (EncKey kp) iv ct))
                     (firstn 32 (skipn 32 (cbc_plaintext (EncKey kp) iv ct))).
Proof.
  split.
  - intros E. unfold DecryptItemKey in E.
    destruct (authenticate itemKey kp) as [data| |] eqn:Ea;
      cbn [bind] in E; try discriminate.
    apply authenticate_Ok_inv in Ea.
    destruct (decrypt data kp) as [pt| |] eqn:Ed;
      cbn [bind] in E; try discriminate.
    pose proof (decrypt_Ok_key _ _ _ Ed) as Hk.
    destruct (decrypt_Ok_inv _ _ _ Ed) as (Hlen & Hmod & Ept & Hpt).
    assert (H64 : 64 <= length pt).
    { destruct (Z_lt_ge_dec (Z.of_nat (length pt)) 64) as [Hs|Hl]; [|lia].
      exfalso. unfold EncKeySize, MACKeySize in E.
      destruct (slice pt 0 32); cbn [bind] in E; try discriminate.
      rewrite slice_Panic in E by (cbn; lia). discriminate. }
    rewrite key_slices in E by assumption. apply Ok_inj in E.
    exists (firstn 16 data), (skipn 16 data).
    rewrite firstn_skipn, length_firstn, length_skipn.
    split; [exact Ea|]. split; [lia|]. split; [lia|].
    split; [exact Hmod|]. split; [exact Hk|].
    rewrite <- Ept. now symmetry.
  - intros (iv & ct & -> & Hiv & Hct & Hmod & Hk & ->).
    now apply DecryptItemKey_whole_blocks.
Qed.

(** X13: on a blob of the documented size, 112 bytes, [DecryptItemKey]
    returns a key pair, or fails with [ErrIncorrectMAC], or fails with
    [aes.KeySizeError]; it does nothing else, and in particular does not
    panic. *)
Theorem DecryptItemKey_112 `{HMAC_SHA256} `{AES} (itemKey : bytes)
  (kp : KeyPair) :
  length itemKey = 112 ->
  (exists keys : KeyPair, DecryptItemKey itemKey kp = Ok keys) \/
  DecryptItemKey itemKey kp = Err ErrIncorrectMAC \/
  DecryptItemKey itemKey kp = Err (aes_KeySizeError (length (EncKey kp))).
Proof.
  intros Hlen. unfold DecryptItemKey.
  rewrite authenticate_long by lia. cbv zeta. rewrite Hlen.
  set (data := firstn (112 - 32) itemKey).
  assert (Hdata : length data = 80)
    by (unfold data; rewrite length_firstn; lia).
  destruct (bytes_Equal _ _); cbn [bind]; [|tauto].
  rewrite decrypt_past_framing by lia. cbv zeta. rewrite Hdata.
  destruct (_ || _); cbn [bind]; [|tauto].
  change ((80 - 16) mod 16 =? 0) with true. cbv iota. cbn [bind].
  left. eexists. apply key_slices.
  rewrite cbc_plaintext_length.
  - rewrite length_skipn, Hdata. cbn. lia.
  - rewrite length_firstn, Hdata. reflexivity.
  - rewrite length_skipn, Hdata. reflexivity.
Qed.

(** X14: whole blocks after the fourth do not change what [DecryptItemKey]
    returns: with a key AES accepts, a blob with a 16-byte IV, 64 bytes of
    ciphertext and further whole blocks, under its tag, gives the key pair of
    the blob without those blocks. *)
Theorem DecryptItemKey_trailing_blocks `{HMAC_SHA256} `{AES}
  (iv ct extra : bytes) (kp : KeyPair) :
  length (EncKey kp) = 16 \/ length (EncKey kp) = 24 \/
  length (EncKey kp) = 32 ->
  length iv = 16 -> length ct = 64 -> length extra mod 16 = 0 ->
  DecryptItemKey ((iv ++ ct ++ extra)
                  ++ hmac_sha256 (MACKey kp) (iv ++ ct ++ extra)) kp
  = DecryptItemKey ((iv ++ ct) ++ hmac_sha256 (MACKey kp) (iv ++ ct)) kp.
Proof.
  intros Hk Hiv Hct Hmod.
  pose proof (Nat.div_mod_eq (length extra) 16) as Hq. rewrite Hmod in Hq.
  assert (Hlen : length (ct ++ extra) = (4 + length extra / 16) * 16)
    by (rewrite length_app; lia).
  rewrite !DecryptItemKey_whole_blocks;
    rewrite ?Hlen, ?Hct, ?Nat.Div0.mod_mul; try assumption; try lia;
    try reflexivity.
  destruct (cbc_chain_app (aes_Decrypt (EncKey kp)) 4 iv ct extra
              (length extra / 16) Hct) as [tail Et].
  assert (Ept : cbc_plaintext (EncKey kp) iv (ct ++ extra)
                = cbc_plaintext (EncKey kp) iv ct ++ tail).
  { unfold cbc_plaintext, aes_BlockSize.
    rewrite Hlen, Nat.div_mul, Hct by lia. exact Et. }
  assert (Hpt : length (cbc_plaintext (EncKey kp) iv ct) = 64)
    by (rewrite cbc_plaintext_length; rewrite ?Hct; auto).
  rewrite Ept. f_equal. f_equal.
  - rewrite firstn_app, Hpt. change (32 - 64) with 0.
    rewrite firstn_O. apply app_nil_r.
  - rewrite skipn_app, Hpt. change (32 - 64) with 0. rewrite skipn_O.
    rewrite firstn_app, length_skipn, Hpt. change (32 - (64 - 32)) with 0.
    rewrite firstn_O. apply app_nil_r.
Qed.

Section ItemKeyOutcomeRun.
Import Standin.

Lemma DecryptItemKey_Ok_iff_witness :
  exists keys : KeyPair,
    DecryptItemKey
      ((iv0 ++ ct1 ++ ct1 ++ ct1 ++ ct1)
       ++ hmac_sha256 (MACKey kp0) (iv0 ++ ct1 ++ ct1 ++ ct1 ++ ct1)) kp0
    = Ok keys.
Proof.
  eexists.
  apply (DecryptItemKey_Ok_iff
           ((iv0 ++ ct1 ++ ct1 ++ ct1 ++ ct1)
            ++ hmac_sha256 (MACKey kp0) (iv0 ++ ct1 ++ ct1 ++ ct1 ++ ct1))
           kp0).
  exists iv0, (ct1 ++ ct1 ++ ct1 ++ ct1).
  split; [reflexivity|]. split; [reflexivity|].
  split; [vm_compute; lia|]. split; [reflexivity|].
  split; [right; right; reflexivity | reflexivity].
Defined.

Lemma DecryptItemKey_112_witness :
  (exists keys : KeyPair, DecryptItemKey (make 112) kp0 = Ok keys) \/
  DecryptItemKey (make 112) kp0 = Err ErrIncorrectMAC \/
  DecryptItemKey (make 112) kp0
  = Err (aes_KeySizeError (length (EncKey kp0))).
Proof.
  apply (DecryptItemKey_112 (make 112) kp0). reflexivity.
Defined.

Lemma DecryptItemKey_trailing_blocks_witness :
  DecryptItemKey
    ((iv0 ++ (ct1 ++ ct1 ++ ct1 ++ ct1) ++ ct1)
     ++ hmac_sha256 (MACKey kp0) (iv0 ++ (ct1 ++ ct1 ++ ct1 ++ ct1) ++ ct1))
    kp0
  = DecryptItemKey
      ((iv0 ++ ct1 ++ ct1 ++ ct1 ++ ct1)
       ++ hmac_sha256 (MACKey kp0) (iv0 ++ ct1 ++ ct1 ++ ct1 ++ ct1)) kp0.
Proof.
  apply (DecryptItemKey_trailing_blocks iv0 (ct1 ++ ct1 ++ ct1 ++ ct1) ct1 kp0).
  - right. right. reflexivity.
  - reflexivity.
  - reflexivity.
  - reflexivity.
Defined.

End ItemKeyOutcomeRun.

(** ** Keys and errors across the package *)

Section KeysAndErrors.
Context `{HMAC_SHA256} `{AES}.

Lemma DecryptOPData01_no_KeySizeError (opdata : bytes) (kp : KeyPair)
  (k : nat) :
  length (EncKey kp) = 16 \/ length (EncKey kp) = 24 \/
  length (EncKey kp) = 32 ->
  DecryptOPData01 opdata kp <> Err (aes_KeySizeError k).
Proof.
  intros Hk E. rewrite DecryptOPData01_eq in E.
  destruct (authenticate opdata kp) as [payload| |] eqn:Ea; cbn [bind] in E.
  - destruct (length payload =? 0); [discriminate|].
    destruct (length payload <? 8); [discriminate|].
    destruct (negb _); [discriminate|].
    destruct (length payload =? 8); [discriminate|].
    destruct (length payload <? 16); [discriminate|].
    cbv zeta in E.
    destruct (decrypt (skipn 16 payload) kp) as [pt| |] eqn:Ed;
      cbn [bind] in E.
    + now apply slice_not_Err in E.
    + rewrite E in Ed. now apply decrypt_no_KeySizeError in Ed.
    + discriminate.
  - rewrite E in Ea. apply authenticate_errors in Ea.
    destruct Ea; discriminate.
  - discriminate.
Qed.

Lemma DecryptItemKey_no_KeySizeError (itemKey : bytes) (kp : KeyPair)
  (k : nat) :
  length (EncKey kp) = 16 \/ length (EncKey kp) = 24 \/
  length (EncKey kp) = 32 ->
  DecryptItemKey itemKey kp <> Err (aes_KeySizeError k).
Proof.
  intros Hk E. unfold DecryptItemKey in E.
  destruct (authenticate itemKey kp) as [data| |] eqn:Ea; cbn [bind] in E.
  - destruct (decrypt data kp) as [pt| |] eqn:Ed; cbn [bind] in E.
    + destruct (slice pt 0 EncKeySize) eqn:E1; cbn [bind] in E;
        [|now apply slice_not_Err in E1|discriminate].
      destruct (slice pt EncKeySize (EncKeySize + MACKeySize)) eqn:E2;
        cbn [bind] in E;
        [discriminate|now apply slice_not_Err in E2|discriminate].
    + injection E as ->. now apply decrypt_no_KeySizeError in Ed.
    + discriminate.
  - injection E as ->. apply authenticate_errors in Ea.
    destruct Ea; discriminate.
  - discriminate.
Qed.

End KeysAndErrors.

(** The keys the package makes have 32 bytes. *)
Lemma package_EncKey_32 `{HMAC_SHA256} `{HMAC_SHA512} `{SHA512} `{AES}
  (kp : KeyPair) :
  (exists (pass : string) (salt : bytes) (nIters : Z),
     ComputeDerivedKeys pass salt nIters = Ok kp) \/
  (exists (opdata : bytes) (derivedKeys : KeyPair),
     DecryptMasterKeys opdata derivedKeys = Ok kp) \/
  (exists (itemKey : bytes) (master : KeyPair),
     DecryptItemKey itemKey master = Ok kp) ->
  length (EncKey kp) = 32.
Proof.
  intros [(pass & salt & nIters & E)|[(opdata & dk & E)|(itemKey & mk & E)]].
  - rewrite ComputeDerivedKeys_eq in E. apply Ok_inj in E. subst kp.
    apply halves_length. rewrite pbkdf2_Key_length. lia.
  - unfold DecryptMasterKeys in E.
    destruct (DecryptOPData01 opdata dk) as [mkData| |];
      cbn [bind] in E; try discriminate.
    rewrite halves_Ok in E by apply Sum512_Size.
    apply Ok_inj in E. subst kp.
    apply halves_length. rewrite Sum512_Size. lia.
  - apply DecryptItemKey_Ok_inv in E. destruct E as (pt & Hlen & ->).
    now apply halves_length.
Qed.

(** X15: a key pair made by [ComputeDerivedKeys], [DecryptMasterKeys] or
    [DecryptItemKey] is accepted by AES wherever it is used next: under it
    [decrypt], [DecryptOPData01] and [DecryptItemKey] never fail with
    [aes.KeySizeError]. *)
Theorem package_keys_fit_cipher `{HMAC_SHA256} `{HMAC_SHA512} `{SHA512} `{AES}
  (kp : KeyPair) :
  (exists (pass : string) (salt : bytes) (nIters : Z),
     ComputeDerivedKeys pass salt nIters = Ok kp) \/
  (exists (opdata : bytes) (derivedKeys : KeyPair),
     DecryptMasterKeys opdata derivedKeys = Ok kp) \/
  (exists (itemKey : bytes) (master : KeyPair),
     DecryptItemKey itemKey master = Ok kp) ->
  forall (blob : bytes) (k : nat),
    decrypt blob kp <> Err (aes_KeySizeError k) /\
    DecryptOPData01 blob kp <> Err (aes_KeySizeError k) /\
    DecryptItemKey blob kp <> Err (aes_KeySizeError k).
Proof.
  intros Hmade blob k.
  assert (Hk : length (EncKey kp) = 16 \/ length (EncKey kp) = 24 \/
               length (EncKey kp) = 32)
    by (right; right; now apply package_EncKey_32).
  split; [|split].
  - now apply decrypt_no_KeySizeError.
  - now apply DecryptOPData01_no_KeySizeError.
  - now apply DecryptItemKey_no_KeySizeError.
Qed.

(** X16: under a key AES accepts, the errors of [DecryptOPData01] and of
    [DecryptMasterKeys] are among [ErrIncompleteMAC], [ErrIncorrectMAC],
    [io.EOF], [ErrIncompleteMagic], [ErrInvalidMagic], [io.ErrUnexpectedEOF],
    [ErrIncompleteIV] and [ErrIncompleteCiphertext]; those of [DecryptItemKey]
    are among [ErrIncompleteMAC], [ErrIncorrectMAC], [io.EOF],
    [ErrIncompleteIV] and [ErrIncompleteCiphertext]. *)
Theorem decoder_errors `{HMAC_SHA256} `{AES} `{SHA512} (input : bytes)
  (kp : KeyPair) (e : error) :
  length (EncKey kp) = 16 \/ length (EncKey kp) = 24 \/
  length (EncKey kp) = 32 ->
  (DecryptOPData01 input kp = Err e \/ DecryptMasterKeys input kp = Err e ->
   In e [ErrIncompleteMAC; ErrIncorrectMAC; io_EOF; ErrIncompleteMagic;
         ErrInvalidMagic; io_ErrUnexpectedEOF; ErrIncompleteIV;
         ErrIncompleteCiphertext]) /\
  (DecryptItemKey input kp = Err e ->
   In e [ErrIncompleteMAC; ErrIncorrectMAC; io_EOF; ErrIncompleteIV;
         ErrIncompleteCiphertext]).
Proof.
  intros Hk. split.
  - intros E.
    assert (Eo : DecryptOPData01 input kp = Err e).
    { destruct E as [E|E]; [exact E|]. unfold DecryptMasterKeys in E.
      destruct (DecryptOPData01 input kp) as [mkData| |];
        cbn [bind] in E; try discriminate; [|congruence].
      rewrite halves_Ok in E by apply Sum512_Size. discriminate. }
    pose proof (DecryptOPData01_errors _ _ _ Eo) as Hin. cbn in Hin |- *.
    destruct Hin as [<-|[<-|[<-|[<-|[<-|[<-|[<-|[<-|[<-|[]]]]]]]]]]; auto 10.
    exfalso. exact (DecryptOPData01_no_KeySizeError input kp _ Hk Eo).
  - intros E.
    pose proof (DecryptItemKey_errors _ _ _ E) as Hin. cbn in Hin |- *.
    destruct Hin as [<-|[<-|[<-|[<-|[<-|[<-|[]]]]]]]; auto 10.
    exfalso. exact (DecryptItemKey_no_KeySizeError input kp _ Hk E).
Qed.

(** The residue modulo 16 of the length field is that of its first byte. *)
Lemma LittleEndian_Uint64_mod_16 (b : bytes) :
  (LittleEndian_Uint64 b mod 16 = byte_Z (nth 0 b x00) mod 16)%Z.
Proof.
  unfold LittleEndian_Uint64. change 16%Z with (2 ^ 4)%Z.
  apply Z.bits_inj'. intros i Hi.
  rewrite !Z.testbit_mod_pow2 by lia.
  destruct (i <? 4)%Z eqn:Ei; [|reflexivity].
  apply Z.ltb_lt in Ei. cbn [andb].
  rewrite !Z.lor_spec, !Z.shiftl_spec_low by lia.
  now rewrite !orb_false_r.
Qed.

(** X17: of the 8-byte length field [DecryptOPData01] only uses the low four
    bits of the first byte: two authenticated containers that differ in
    their length fields, but not in those four bits, give the same outcome. *)
Theorem DecryptOPData01_length_low_bits `{HMAC_SHA256} `{AES} (kp : KeyPair)
  (lenb lenb' rest : bytes) :
  length lenb = 8 -> length lenb' = 8 ->
  (byte_Z (nth 0 lenb x00) mod 16 = byte_Z (nth 0 lenb' x00) mod 16)%Z ->
  DecryptOPData01
    ((OPData01Magic ++ lenb ++ rest)
     ++ hmac_sha256 (MACKey kp) (OPData01Magic ++ lenb ++ rest)) kp
  = DecryptOPData01
      ((OPData01Magic ++ lenb' ++ rest)
       ++ hmac_sha256 (MACKey kp) (OPData01Magic ++ lenb' ++ rest)) kp.
Proof.
  intros Hl Hl' Hlow.
  rewrite !DecryptOPData01_framed by assumption.
  now rewrite !LittleEndian_Uint64_mod_16, Hlow.
Qed.

Section KeysAndErrorsRun.
Import Standin.

Lemma package_keys_fit_cipher_witness :
  decrypt (iv0 ++ ct1)
    (mkKeyPair
       (firstn 32 (pbkdf2_Key (list_byte_of_string "passphrase") len5 2))
       (firstn 32
          (skipn 32 (pbkdf2_Key (list_byte_of_string "passphrase") len5 2))))
  <> Err (aes_KeySizeError 0).
Proof.
  refine (proj1 (package_keys_fit_cipher _ _ (iv0 ++ ct1) 0)).
  left. exists "passphrase"%string, len5, 2%Z.
  exact (ComputeDerivedKeys_eq "passphrase" len5 2).
Defined.

Lemma decoder_errors_witness :
  DecryptItemKey (make 40) kp0 = Err ErrIncorrectMAC /\
  In ErrIncorrectMAC
     [ErrIncompleteMAC; ErrIncorrectMAC; io_EOF; ErrIncompleteIV;
      ErrIncompleteCiphertext].
Proof.
  assert (E : DecryptItemKey (make 40) kp0 = Err ErrIncorrectMAC)
    by (vm_compute; reflexivity).
  split; [exact E|].
  apply (decoder_errors (make 40) kp0 ErrIncorrectMAC); [|exact E].
  right. right. reflexivity.
Defined.

Lemma DecryptOPData01_length_low_bits_witness :
  DecryptOPData01
    ((OPData01Magic ++ len5 ++ iv0 ++ ct1)
     ++ hmac_sha256 (MACKey kp0) (OPData01Magic ++ len5 ++ iv0 ++ ct1)) kp0
  = DecryptOPData01
      ((OPData01Magic ++ [x15; xff; x00; x00; x00; x00; x00; x01] ++ iv0 ++ ct1)
       ++ hmac_sha256 (MACKey kp0)
            (OPData01Magic ++ [x15; xff; x00; x00; x00; x00; x00; x01]
             ++ iv0 ++ ct1)) kp0.
Proof.
  apply (DecryptOPData01_length_low_bits kp0 len5
           [x15; xff; x00; x00; x00; x00; x00; x01] (iv0 ++ ct1));
    reflexivity.
Defined.

End KeysAndErrorsRun.

(** ** The two formats under one key *)

(** X18: the two decoders do not tell the formats apart.  An input of 112
    bytes or more that [DecryptOPData01] decodes under [kp] is also accepted
    by [DecryptItemKey] under [kp], which takes the magic and the length
    field for the IV. *)
Theorem DecryptItemKey_accepts_containers `{HMAC_SHA256} `{AES}
  (opdata out : bytes) (kp : KeyPair) :
  DecryptOPData01 opdata kp = Ok out -> 112 <= length opdata ->
  exists keys : KeyPair, DecryptItemKey opdata kp = Ok keys.
Proof.
  intros E Hlen.
  destruct (DecryptOPData01_Ok_inv _ _ _ E)
    as (lenb & rest & pt & -> & Hl & Ed & _).
  pose proof (decrypt_Ok_key _ _ _ Ed) as Hk.
  destruct (decrypt_Ok_inv _ _ _ Ed) as (Hge & Hmod & _).
  rewrite !length_app, hmac_sha256_Size, OPData01Magic_length, Hl in Hlen.
  assert (Hrest : length rest mod 16 = 0).
  { pose proof (Nat.div_mod_eq (length rest - 16) 16) as Hq.
    rewrite Hmod in Hq.
    replace (length rest) with (0 + ((length rest - 16) / 16 + 1) * 16) by lia.
    apply Nat.Div0.mod_add. }
  eexists.
  replace (OPData01Magic ++ lenb ++ rest)
    with ((OPData01Magic ++ lenb) ++ rest) by (symmetry; apply app_assoc).
  apply DecryptItemKey_whole_blocks; try assumption.
  - rewrite length_app, OPData01Magic_length. lia.
  - lia.
Qed.

Section FormatsRun.
Import Standin.

Lemma DecryptItemKey_accepts_containers_witness :
  exists keys : KeyPair,
    DecryptItemKey
      ((OPData01Magic ++ len5 ++ iv0 ++ ct1 ++ ct1 ++ ct1)
       ++ hmac_sha256 (MACKey kp0)
            (OPData01Magic ++ len5 ++ iv0 ++ ct1 ++ ct1 ++ ct1)) kp0
    = Ok keys.
Proof.
  apply (DecryptItemKey_accepts_containers
           ((OPData01Magic ++ len5 ++ iv0 ++ ct1 ++ ct1 ++ ct1)
            ++ hmac_sha256 (MACKey kp0)
                 (OPData01Magic ++ len5 ++ iv0 ++ ct1 ++ ct1 ++ ct1))
           (skipn 11 (cbc_plaintext (EncKey kp0) iv0 (ct1 ++ ct1 ++ ct1)))
           kp0).
  - vm_compute. reflexivity.
  - vm_compute. lia.
Defined.

End FormatsRun.
